(** * Microbe Music: the scale model and the playback controller of
    [src/app/page.tsx], embedded in Rocq.

    Numbers.  A JavaScript [number] that holds a finite double is read as the
    rational it denotes ([Q]) wherever the code only rounds, compares, adds
    or subtracts it; [Math.pow] is read as the real power function, so
    frequencies live in [R].  Rounding errors of the double arithmetic are
    not part of this model. *)

From Stdlib Require Import ZArith QArith Qround Qminmax Reals Lra Lia Bool String.
From Stdlib Require Lqa Qabs.
From stdpp Require Import base list.

(** ** ScaleModel *)

Module Scale.

#[local] Open Scope Z_scope.

(** [Math.round]: the nearest integer, ties towards plus infinity. *)
Definition Math_round (n : Q) : Z := Qfloor (n + (1 # 2))%Q.

(** [clampInt(n, min, max) = Math.max(min, Math.min(max, Math.round(n)))]. *)
Definition clampInt (n : Q) (min max : Z) : Z :=
  Z.max min (Z.min max (Math_round n)).

(** The clamp of the specification, on integers, for comparison. *)
Definition clamp (x lo hi : Z) : Z := Z.max lo (Z.min hi x).

(** [freqForStep(baseHz, step, edo) = baseHz * Math.pow(2, step / edo)]. *)
Definition freqForStep (baseHz : R) (step : Z) (edo : Z) : R :=
  (baseHz * Rpower 2 (IZR step / IZR edo))%R.

(** The body of the [for (let i = 0; i < count; i++) list.push(...)] loop of
    the [freqs] memo; [fuel] bounds the number of iterations. *)
Fixpoint freqs_loop (fuel : nat) (baseHz : R) (edo : Z) (i count : Z)
    (lst : list R) : list R :=
  match fuel with
  | O => lst
  | S fuel' =>
      if i <? count
      then freqs_loop fuel' baseHz edo (i + 1) count
             (lst ++ [freqForStep baseHz i edo])
      else lst
  end.

(** The [freqs] memo of [Home]. *)
Definition freqs (baseHz : R) (edo : Z) (noteCount : Q) : list R :=
  let count := clampInt noteCount 1 edo in
  freqs_loop (Z.to_nat count) baseHz edo 0 count [].

(** The cents column of the scale table: [(1200 * i) / edo]. *)
Definition cents (i : Z) (edo : Z) : Q :=
  ((1200 * inject_Z i) / inject_Z edo)%Q.

(** A row of the scale table as [freqs.map((f, i) => ...)] renders it. *)
Record Row := { row_step : Z; row_frequency : R; row_cents : Q }.

Definition scaleTable (fs : list R) (edo : Z) : list Row :=
  imap (fun i f => {| row_step := Z.of_nat i; row_frequency := f;
                      row_cents := cents (Z.of_nat i) edo |}) fs.

End Scale.

(** ** PlaybackController

    [playScale] and [stop] are [async] functions: each call runs until its
    next [await] and is resumed later by the event loop, one continuation at
    a time.  A call is a task; its state says at which [await] it waits, or
    how its promise settled.  The world holds the three refs of [Home], the
    tasks, and a log of what the calls did to the audio backend. *)

Module Playback.

#[local] Open Scope Q_scope.

(** [AudioContextState] of the DOM typings. *)
Inductive AudioContextState := running | suspended | closed.

(** Automation events scheduled on an [AudioParam]. *)
Inductive ParamEvent :=
| setValueAtTime (value time : Q)
| exponentialRampToValueAtTime (value time : Q).

Inductive OscillatorType := sine | square | sawtooth | triangle.

Definition noteMs : Q := 240.
Definition gapMs : Q := 30.
Definition attackMs : Q := 8.
Definition releaseMs : Q := 25.

Section Controller.

Variable Freq : Type.

(** The oscillator and gain pair built for one note. *)
Record Voice := {
  osc_type : OscillatorType;
  osc_frequency : Freq * Q;
  gain_gain : list ParamEvent;
  osc_start : Q;
  osc_stop : Q
}.

(** What a call did, in the order it happened; [k] is the call. *)
Inductive Action :=
| NewAudioContext (s : AudioContextState)
| CallResume (k : nat)
| CallSuspend (k : nat)
| StartNote (k : nat) (v : Voice)
| SetTimeout (k : nat) (ms : Q)
| Disconnect (k : nat)
| Uncaught (k : nat).

(** Where an [async] call stands: running its synchronous part, waiting
    at one of the [await]s, or settled. *)
Inductive Task :=
| Running
| PlayAwaitResume (freqs : list Freq)
| PlayAwaitTimeout (rest : list Freq)
| PlayAwaitSuspend
| StopAwaitSuspend
| Fulfilled
| Rejected.

Record World := {
  audioCtx : option AudioContextState;
  stopFlag : bool;
  playing : bool;
  tasks : list Task;
  log : list Action
}.

Definition initial : World :=
  {| audioCtx := None; stopFlag := false; playing := false;
     tasks := []; log := [] |}.

Definition set_audioCtx (c : option AudioContextState) (w : World) : World :=
  {| audioCtx := c; stopFlag := stopFlag w; playing := playing w;
     tasks := tasks w; log := log w |}.
Definition set_stopFlag (b : bool) (w : World) : World :=
  {| audioCtx := audioCtx w; stopFlag := b; playing := playing w;
     tasks := tasks w; log := log w |}.
Definition set_playing (b : bool) (w : World) : World :=
  {| audioCtx := audioCtx w; stopFlag := stopFlag w; playing := b;
     tasks := tasks w; log := log w |}.
Definition set_task (k : nat) (t : Task) (w : World) : World :=
  {| audioCtx := audioCtx w; stopFlag := stopFlag w; playing := playing w;
     tasks := <[k := t]> (tasks w); log := log w |}.
Definition spawn (t : Task) (w : World) : World :=
  {| audioCtx := audioCtx w; stopFlag := stopFlag w; playing := playing w;
     tasks := tasks w ++ [t]; log := log w |}.
Definition emit (a : Action) (w : World) : World :=
  {| audioCtx := audioCtx w; stopFlag := stopFlag w; playing := playing w;
     tasks := tasks w; log := log w ++ [a] |}.

(** [ensureAudioContext]: [fresh] is the state a newly constructed context
    reports.  The constructor is taken to return a context; a constructor
    that throws is not part of this model. *)
Definition ensureAudioContext (fresh : AudioContextState) (w : World) : World :=
  match audioCtx w with
  | Some _ => w
  | None => emit (NewAudioContext fresh) (set_audioCtx (Some fresh) w)
  end.

(** Lines 99-123: the nodes of one note, scheduled from [now]. *)
Definition voice (f : Freq) (now : Q) : Voice :=
  let attack := attackMs / 1000 in
  let duration := noteMs / 1000 in
  let release := releaseMs / 1000 in
  {| osc_type := sine;
     osc_frequency := (f, now);
     gain_gain :=
       [ setValueAtTime 0.0001 now;
         exponentialRampToValueAtTime 0.2 (now + attack);
         setValueAtTime 0.2 (now + Qmax attack (duration - release));
         exponentialRampToValueAtTime 0.0001 (now + duration) ];
     osc_start := now;
     osc_stop := now + duration + 0.01 |}.

(** Lines 137-149: leaving the loop; call [k] ends up waiting for
    [suspend], or fulfilled. *)
Definition playScale_exit (k : nat) (w : World) : World :=
  let w := set_playing false w in
  if stopFlag w then
    match audioCtx w with
    | Some running => set_task k PlayAwaitSuspend (emit (CallSuspend k) w)
    | _ => set_task k Fulfilled w
    end
  else set_task k Fulfilled w.

(** Lines 96-126: the loop from its head to the next [await], over the
    frequencies not visited yet. *)
Definition playScale_loop (k : nat) (now : Q) (fs : list Freq) (w : World)
    : World :=
  match fs with
  | [] => playScale_exit k w
  | f :: rest =>
      if stopFlag w then playScale_exit k w
      else set_task k (PlayAwaitTimeout rest)
             (emit (SetTimeout k (noteMs + gapMs))
                (emit (StartNote k (voice f now)) w))
  end.

(** Lines 77-88: [playScale] from its call to its first [await]; the call
    becomes task [length (tasks w)]. *)
Definition playScale (freqs : list Freq) (fresh : AudioContextState)
    (now : Q) (w : World) : World :=
  let k := length (tasks w) in
  if playing w then spawn Fulfilled w
  else
    let w := set_playing true (set_stopFlag false w) in
    let w := ensureAudioContext fresh w in
    match audioCtx w with
    | Some suspended =>
        spawn (PlayAwaitResume freqs) (emit (CallResume k) w)
    | _ => playScale_loop k now freqs (spawn Running w)
    end.

(** Lines 62-75: [stop] from its call to its [await]. *)
Definition stop (w : World) : World :=
  let k := length (tasks w) in
  let w := set_playing false (set_stopFlag true w) in
  match audioCtx w with
  | Some running => spawn StopAwaitSuspend (emit (CallSuspend k) w)
  | _ => spawn Fulfilled w
  end.

(** The backend settles the promise task [k] awaits: [ok] says whether it
    fulfils; a fulfilled [resume] leaves the context running, a fulfilled
    [suspend] leaves it suspended, a rejected one leaves it as it was.  A
    rejected [resume] is not caught in [playScale] (line 87), a rejected
    [suspend] is (lines 69-73 and 143-147). *)
Definition settle (k : nat) (ok : bool) (now : Q) (w : World) : World :=
  match tasks w !! k with
  | Some (PlayAwaitResume fs) =>
      if ok then playScale_loop k now fs (set_audioCtx (Some running) w)
      else set_task k Rejected (emit (Uncaught k) w)
  | Some PlayAwaitSuspend | Some StopAwaitSuspend =>
      set_task k Fulfilled
        (if ok then set_audioCtx (Some suspended) w else w)
  | _ => w
  end.

(** The timer of line 126 fires for task [k]: lines 128-134, then the loop
    goes on. *)
Definition timeout (k : nat) (now : Q) (w : World) : World :=
  match tasks w !! k with
  | Some (PlayAwaitTimeout rest) =>
      playScale_loop k now rest (emit (Disconnect k) w)
  | _ => w
  end.

(** What the event loop can run next. *)
Inductive Event :=
| Play (freqs : list Freq) (fresh : AudioContextState) (now : Q)
| Stop
| Settle (k : nat) (ok : bool) (now : Q)
| Timeout (k : nat) (now : Q).

Definition step (w : World) (e : Event) : World :=
  match e with
  | Play fs fresh now => playScale fs fresh now w
  | Stop => stop w
  | Settle k ok now => settle k ok now w
  | Timeout k now => timeout k now w
  end.

Definition run (w : World) (es : list Event) : World := fold_left step es w.

(** The frequencies of the notes call [k] started, oldest first. *)
Fixpoint notes_of (k : nat) (l : list Action) : list Freq :=
  match l with
  | [] => []
  | StartNote k' v :: l' =>
      if Nat.eqb k k' then fst (osc_frequency v) :: notes_of k l'
      else notes_of k l'
  | _ :: l' => notes_of k l'
  end.

(** The event resumes call [k]. *)
Definition targets (e : Event) (k : nat) : Prop :=
  match e with
  | Settle j _ _ | Timeout j _ => j = k
  | _ => False
  end.

(** No note is logged for a call that does not exist yet. *)
Definition log_wf (w : World) : Prop :=
  forall k : nat, (length (tasks w) <= k)%nat -> notes_of k (log w) = [].

(** In a log, every note was built by [voice] and is followed at once by
    the timer of line 126. *)
Fixpoint paced (l : list Action) : Prop :=
  match l with
  | [] => True
  | StartNote k v :: l' =>
      (exists f now, v = voice f now)
      /\ (exists l'', l' = SetTimeout k (noteMs + gapMs) :: l'')
      /\ paced l'
  | _ :: l' => paced l'
  end.

(** The frequencies a waiting call has still to visit. *)
Definition pending (t : option Task) : option (list Freq) :=
  match t with
  | Some (PlayAwaitResume l) | Some (PlayAwaitTimeout l) => Some l
  | _ => None
  end.

(** The notes call [k] has started are a prefix of [fs], and while the
    call waits, what it has still to visit is the rest of [fs]. *)
Definition draws_from (k : nat) (fs : list Freq) (w : World) : Prop :=
  (k < length (tasks w))%nat
  /\ exists rest,
       notes_of k (log w) ++ rest = fs
       /\ forall l, pending (tasks w !! k) = Some l -> rest = l.

(** Call [k] was given [fs], no stop request stands, and the call has lost
    no note: it waits with the rest of [fs] to visit, or it finished having
    started all of [fs], or its [resume] was refused before the first
    note. *)
Definition uncancelled (k : nat) (fs : list Freq) (w : World) : Prop :=
  stopFlag w = false
  /\ match tasks w !! k with
     | Some (PlayAwaitResume l) => l = fs /\ notes_of k (log w) = []
     | Some (PlayAwaitTimeout l) => notes_of k (log w) ++ l = fs
     | Some Fulfilled => notes_of k (log w) = fs
     | Some Rejected => notes_of k (log w) = []
     | _ => False
     end.

(** The event is a click on Play. *)
Definition is_play (e : Event) : Prop :=
  match e with
  | Play _ _ _ => True
  | _ => False
  end.

(** The calls that started the notes of a log, oldest first. *)
Fixpoint note_calls (l : list Action) : list nat :=
  match l with
  | [] => []
  | StartNote k _ :: l' => k :: note_calls l'
  | _ :: l' => note_calls l'
  end.

(** The call waits inside the loop of [playScale]: before its first note,
    or between two notes. *)
Definition looping (t : Task) : bool :=
  match t with
  | PlayAwaitResume _ | PlayAwaitTimeout _ => true
  | _ => false
  end.

Definition in_loop (w : World) (k : nat) : Prop :=
  exists t, tasks w !! k = Some t /\ looping t = true.

(** The numbers of a list never go down. *)
Definition ordered (l : list nat) : Prop :=
  forall (i j a b : nat),
    (i <= j)%nat -> l !! i = Some a -> l !! j = Some b -> (a <= b)%nat.

(** One sequence at a time: at most one call is in its loop, [playingRef]
    is set while one is, and the notes of the log were started call after
    call. *)
Definition one_at_a_time (w : World) : Prop :=
  (forall j k, in_loop w j -> in_loop w k -> j = k)
  /\ (forall k, in_loop w k -> playing w = true)
  /\ ordered (note_calls (log w))
  /\ Forall (fun id => (id < length (tasks w))%nat) (note_calls (log w))
  /\ (forall k, in_loop w k ->
        Forall (fun id => (id <= k)%nat) (note_calls (log w))).

(** The number of audio contexts a log saw constructed. *)
Fixpoint contexts_created (l : list Action) : nat :=
  match l with
  | [] => O
  | NewAudioContext _ :: l' => S (contexts_created l')
  | _ :: l' => contexts_created l'
  end.

Definition is_CallSuspend (a : Action) : Prop :=
  match a with
  | CallSuspend _ => True
  | _ => False
  end.

Definition event_time (e : ParamEvent) : Q :=
  match e with
  | setValueAtTime _ t | exponentialRampToValueAtTime _ t => t
  end.

Definition event_value (e : ParamEvent) : Q :=
  match e with
  | setValueAtTime v _ | exponentialRampToValueAtTime v _ => v
  end.

End Controller.

Arguments NewAudioContext {Freq} s.
Arguments CallResume {Freq} k.
Arguments CallSuspend {Freq} k.
Arguments StartNote {Freq} k v.
Arguments SetTimeout {Freq} k ms.
Arguments Disconnect {Freq} k.
Arguments Uncaught {Freq} k.
Arguments Running {Freq}.
Arguments PlayAwaitResume {Freq} freqs.
Arguments PlayAwaitTimeout {Freq} rest.
Arguments PlayAwaitSuspend {Freq}.
Arguments StopAwaitSuspend {Freq}.
Arguments Fulfilled {Freq}.
Arguments Rejected {Freq}.
Arguments Play {Freq} freqs fresh now.
Arguments Stop {Freq}.
Arguments Settle {Freq} k ok now.
Arguments Timeout {Freq} k now.
Arguments audioCtx {Freq} w.
Arguments stopFlag {Freq} w.
Arguments playing {Freq} w.
Arguments tasks {Freq} w.
Arguments log {Freq} w.
Arguments osc_type {Freq} v.
Arguments osc_frequency {Freq} v.
Arguments gain_gain {Freq} v.
Arguments osc_start {Freq} v.
Arguments osc_stop {Freq} v.
Arguments voice {Freq} f now.
Arguments step {Freq} w e.
Arguments run {Freq} w es.
Arguments notes_of {Freq} k l.
Arguments targets {Freq} e k.
Arguments log_wf {Freq} w.
Arguments looping {Freq} t.
Arguments in_loop {Freq} w k.
Arguments one_at_a_time {Freq} w.
Arguments contexts_created {Freq} l.
Arguments is_CallSuspend {Freq} a.
Arguments is_play {Freq} e.
Arguments note_calls {Freq} l.
Arguments pending {Freq} t.
Arguments draws_from {Freq} k fs w.
Arguments uncancelled {Freq} k fs w.
Arguments paced {Freq} l.
Arguments playScale {Freq} freqs fresh now w.
Arguments playScale_loop {Freq} k now fs w.
Arguments playScale_exit {Freq} k w.
Arguments stop {Freq} w.
Arguments settle {Freq} k ok now w.
Arguments timeout {Freq} k now w.
Arguments ensureAudioContext {Freq} fresh w.

End Playback.

(** ** The [Home] component: tuning state, its input handlers, and the two
    buttons wired to the playback controller. *)

Module Home.

Import Scale Playback.

#[local] Open Scope Z_scope.
#[local] Open Scope string_scope.

Record Preset := { name : string; preset_edo : Z; notes : option Z }.

Definition PRESETS : list Preset :=
  [ {| name := "12-EDO (standard)"; preset_edo := 12; notes := None |};
    {| name := "19-EDO"; preset_edo := 19; notes := None |};
    {| name := "31-EDO"; preset_edo := 31; notes := None |};
    {| name := "53-EDO"; preset_edo := 53; notes := None |} ].

(** The four [useState] cells. *)
Record Tuning := {
  baseHz : Q;
  edo : Z;
  noteCount : Z;
  presetName : string
}.

Definition initialTuning : Tuning :=
  {| baseHz := 440; edo := 12; noteCount := 12;
     presetName := "12-EDO (standard)" |}.

(** The two effects that depend on [edo] (lines 36-44). *)
Definition edoEffects (t : Tuning) : Tuning :=
  {| baseHz := baseHz t;
     edo := edo t;
     noteCount := clampInt (inject_Z (noteCount t)) 1 (edo t);
     presetName :=
       match List.find (fun p => Z.eqb (preset_edo p) (edo t)) PRESETS with
       | Some p => name p
       | None => "Custom"
       end |}.

(** The render committed after [setEdo(v)] changed [edo] and before the
    effects of lines 36-44 have run: [edo] is new, the note count and the
    label are still the old ones. *)
Definition edoRender (v : Z) (t : Tuning) : Tuning :=
  {| baseHz := baseHz t; edo := v; noteCount := noteCount t;
     presetName := presetName t |}.

(** [setEdo(v)] taken up to the state that settles: the render of
    [edoRender] followed by the effects, which run only when [edo]
    changed.  The render in between is [edoRender v t]. *)
Definition setEdo (v : Z) (t : Tuning) : Tuning :=
  if Z.eqb v (edo t) then t
  else edoEffects {| baseHz := baseHz t; edo := v; noteCount := noteCount t;
                     presetName := presetName t |}.

(** The [onChange] handlers (lines 168-173, 193, 206, 219); [v] is
    [Number(e.target.value)]. *)
Definition onChange_preset (n : string) (t : Tuning) : Tuning :=
  let t := {| baseHz := baseHz t; edo := edo t; noteCount := noteCount t;
              presetName := n |} in
  match List.find (fun x => String.eqb (name x) n) PRESETS with
  | Some p => setEdo (preset_edo p) t
  | None => t
  end.

Definition onChange_baseHz (v : Q) (t : Tuning) : Tuning :=
  {| baseHz := v; edo := edo t; noteCount := noteCount t;
     presetName := presetName t |}.

Definition onChange_edo (v : Q) (t : Tuning) : Tuning :=
  setEdo (clampInt v 5 53) t.

Definition onChange_noteCount (v : Q) (t : Tuning) : Tuning :=
  {| baseHz := baseHz t; edo := edo t;
     noteCount := clampInt v 1 (edo t);
     presetName := presetName t |}.

(** The [freqs] memo of the current render. *)
Definition currentFreqs (t : Tuning) : list R :=
  freqs (Q2R (baseHz t)) (edo t) (inject_Z (noteCount t)).

(** The ranges of the two integer parameters. *)
Definition tuning_inv (t : Tuning) : Prop :=
  5 <= edo t <= 53 /\ 1 <= noteCount t <= edo t.

Record State := { tuning : Tuning; playback : World R }.

Definition initialState : State :=
  {| tuning := initialTuning; playback := initial R |}.

(** What can happen to the page: an input changes, a button is clicked, or
    the event loop resumes a pending call. *)
Inductive Event :=
| ChangePreset (n : string)
| ChangeBaseHz (v : Q)
| ChangeEdo (v : Q)
| ChangeNoteCount (v : Q)
| ClickPlay (fresh : AudioContextState) (now : Q)
| ClickStop
| Settled (k : nat) (ok : bool) (now : Q)
| TimerFired (k : nat) (now : Q).

Definition onTuning (f : Tuning -> Tuning) (s : State) : State :=
  {| tuning := f (tuning s); playback := playback s |}.

Definition onPlayback (e : Playback.Event R) (s : State) : State :=
  {| tuning := tuning s; playback := Playback.step (playback s) e |}.

Definition step (s : State) (e : Event) : State :=
  match e with
  | ChangePreset n => onTuning (onChange_preset n) s
  | ChangeBaseHz v => onTuning (onChange_baseHz v) s
  | ChangeEdo v => onTuning (onChange_edo v) s
  | ChangeNoteCount v => onTuning (onChange_noteCount v) s
  | ClickPlay fresh now =>
      onPlayback (Play (currentFreqs (tuning s)) fresh now) s
  | ClickStop => onPlayback Stop s
  | Settled k ok now => onPlayback (Settle k ok now) s
  | TimerFired k now => onPlayback (Timeout k now) s
  end.

Definition run (s : State) (es : list Event) : State := fold_left step es s.

(** The playback event of a page event that is not a click on Play; a
    change of the tuning is none. *)
Definition playbackEvent (e : Event) : option (Playback.Event R) :=
  match e with
  | ClickStop => Some Stop
  | Settled k ok now => Some (Settle k ok now)
  | TimerFired k now => Some (Timeout k now)
  | _ => None
  end.

Definition is_ClickPlay (e : Event) : Prop :=
  match e with
  | ClickPlay _ _ => True
  | _ => False
  end.

(** A first Play, a Stop during the first note, the [suspend] of that Stop
    fulfilled, and a second Play whose [resume] is fulfilled. *)
Definition stop_then_play : list Event :=
  [ ClickPlay running 0; ClickStop; Settled 1 true 0.1;
    ClickPlay running 0.1; Settled 2 true 0.1 ]%Q.

End Home.

(** * Properties of the scale model *)

Module ScaleFacts.

Import Scale.

#[local] Open Scope Z_scope.

Lemma Math_round_inject_Z (n : Z) : Math_round (inject_Z n) = n.
Proof.
  unfold Math_round.
  assert (H1 : (inject_Z n <= inject_Z n + (1 # 2))%Q).
  { rewrite <- (Qplus_0_r (inject_Z n)) at 1.
    apply Qplus_le_r. discriminate. }
  assert (H2 : (inject_Z n + (1 # 2) < inject_Z (n + 1))%Q).
  { rewrite inject_Z_plus. apply Qplus_lt_r. reflexivity. }
  apply Qfloor_resp_le in H1. rewrite Qfloor_Z in H1.
  pose proof (Qfloor_le (inject_Z n + (1 # 2))) as H3.
  assert (H4 : (inject_Z (Qfloor (inject_Z n + (1 # 2))) < inject_Z (n + 1))%Q)
    by (eapply Qle_lt_trans; eassumption).
  rewrite <- Zlt_Qlt in H4. lia.
Qed.

(** [Math.round] returns an integer at distance at most one half. *)
Lemma Math_round_nearest (n : Q) :
  (inject_Z (Math_round n) - (1 # 2) <= n
   /\ n < inject_Z (Math_round n) + (1 # 2))%Q.
Proof.
  unfold Math_round.
  pose proof (Qfloor_le (n + (1 # 2))) as H1.
  pose proof (Qlt_floor (n + (1 # 2))) as H2.
  rewrite inject_Z_plus in H2.
  split.
  - apply (Qplus_le_l _ _ (1 # 2)). ring_simplify.
    ring_simplify in H1. exact H1.
  - apply (Qplus_lt_l _ _ (1 # 2)).
    eapply Qlt_le_trans; [exact H2|].
    ring_simplify. apply Qle_refl.
Qed.

Lemma clampInt_range (n : Q) (min max : Z) :
  min <= max -> min <= clampInt n min max <= max.
Proof. unfold clampInt. lia. Qed.

Lemma clampInt_lower (n : Q) (min max : Z) : min <= clampInt n min max.
Proof. unfold clampInt. lia. Qed.

Lemma clampInt_inside (n : Q) (min max : Z) :
  min <= Math_round n <= max -> clampInt n min max = Math_round n.
Proof. unfold clampInt. lia. Qed.

Lemma clampInt_below (n : Q) (min max : Z) :
  min <= max -> Math_round n < min -> clampInt n min max = min.
Proof. unfold clampInt. lia. Qed.

Lemma clampInt_above (n : Q) (min max : Z) :
  min <= max -> max < Math_round n -> clampInt n min max = max.
Proof. unfold clampInt. lia. Qed.

Lemma clampInt_inject_Z (n min max : Z) :
  clampInt (inject_Z n) min max = clamp n min max.
Proof. unfold clampInt, clamp. now rewrite Math_round_inject_Z. Qed.

(** The loop pushes one frequency per step from [i] up to [count - 1], and
    any fuel of at least [count - i] is enough for it to leave by its own
    test. *)
Lemma freqs_loop_spec (fuel : nat) (baseHz : R) (edo i count : Z)
    (lst : list R) :
  (Z.to_nat (count - i) <= fuel)%nat ->
  freqs_loop fuel baseHz edo i count lst =
  lst ++ map (fun j => freqForStep baseHz (i + Z.of_nat j) edo)
           (seq 0 (Z.to_nat (count - i))).
Proof.
  revert i lst. induction fuel as [|fuel IH]; intros i lst Hfuel.
  - assert (Z.to_nat (count - i) = 0%nat) as -> by lia.
    simpl. now rewrite app_nil_r.
  - simpl. destruct (Z.ltb_spec i count) as [Hlt|Hge].
    + rewrite IH by lia.
      assert (Z.to_nat (count - i) = S (Z.to_nat (count - (i + 1)))) as ->
        by lia.
      rewrite <- app_assoc. f_equal. simpl. f_equal.
      * now rewrite Z.add_0_r.
      * rewrite <- seq_shift, map_map.
        apply map_ext. intros j. f_equal. lia.
    + assert (Z.to_nat (count - i) = 0%nat) as -> by lia.
      simpl. now rewrite app_nil_r.
Qed.

Lemma freqs_spec (baseHz : R) (edo : Z) (noteCount : Q) :
  freqs baseHz edo noteCount =
  map (fun j => freqForStep baseHz (Z.of_nat j) edo)
    (seq 0 (Z.to_nat (clampInt noteCount 1 edo))).
Proof.
  unfold freqs. rewrite freqs_loop_spec by lia.
  simpl. now rewrite Z.sub_0_r.
Qed.

Lemma freqs_length (baseHz : R) (edo : Z) (noteCount : Q) :
  length (freqs baseHz edo noteCount) = Z.to_nat (clampInt noteCount 1 edo).
Proof. now rewrite freqs_spec, length_map, length_seq. Qed.

(** C4: for every base frequency, division count and note count, the
    computed scale is the list of the entries of steps [0 .. count - 1] in
    that order, and its length is exactly the clamp of the note count to
    [1, divisionsPerOctave] (on an integer note count, the plain clamp; on
    any other, the clamp of its rounding); more fuel does not change it. *)
Theorem freqs_entries_and_length (baseHz : R) (edo : Z) (noteCount : Q) :
  let count := clampInt noteCount 1 edo in
  1 <= count
  /\ Z.of_nat (length (freqs baseHz edo noteCount)) = count
  /\ freqs baseHz edo noteCount =
     map (fun j => freqForStep baseHz (Z.of_nat j) edo)
       (seq 0 (Z.to_nat count))
  /\ (forall n : Z,
        Z.of_nat (length (freqs baseHz edo (inject_Z n))) = clamp n 1 edo)
  /\ (forall fuel, (Z.to_nat count <= fuel)%nat ->
        freqs_loop fuel baseHz edo 0 count [] = freqs baseHz edo noteCount).
Proof.
  intros count.
  assert (Hc : 1 <= count) by apply clampInt_lower.
  split; [exact Hc|]. split; [|split; [|split]].
  - rewrite freqs_length. fold count. lia.
  - apply freqs_spec.
  - intros n. rewrite freqs_length, clampInt_inject_Z.
    unfold clamp. lia.
  - intros fuel Hfuel. unfold freqs. fold count.
    rewrite !freqs_loop_spec; [reflexivity|lia|lia].
Qed.

Lemma freqs_lookup (baseHz : R) (edo : Z) (noteCount : Q) (i : nat) :
  Z.of_nat i < clampInt noteCount 1 edo ->
  freqs baseHz edo noteCount !! i = Some (freqForStep baseHz (Z.of_nat i) edo).
Proof.
  intros Hi. rewrite freqs_spec, list_lookup_fmap.
  rewrite lookup_seq_lt by lia. reflexivity.
Qed.

Lemma freqForStep_0 (baseHz : R) (edo : Z) : freqForStep baseHz 0 edo = baseHz.
Proof.
  unfold freqForStep, Rdiv. rewrite Rmult_0_l, Rpower_O by lra. lra.
Qed.

Lemma cents_0 (edo : Z) : (cents 0 edo == 0)%Q.
Proof. unfold cents, Qdiv. ring. Qed.

(** C5: for every step below the count, the row of the scale table holds
    the frequency [baseHz * 2^(step / edo)] and the cents value
    [1200 * step / edo]; the row of step 0 holds [baseHz] and 0 cents.  The
    division count is positive, as it is on the page. *)
Theorem scale_row_formula (baseHz : R) (edo : Z) (noteCount : Q) (step : nat) :
  0 < edo ->
  Z.of_nat step < clampInt noteCount 1 edo ->
  exists row,
    scaleTable (freqs baseHz edo noteCount) edo !! step = Some row
    /\ freqs baseHz edo noteCount !! step = Some (row_frequency row)
    /\ row_step row = Z.of_nat step
    /\ row_frequency row
       = (baseHz * Rpower 2 (IZR (Z.of_nat step) / IZR edo))%R
    /\ (row_cents row == 1200 * inject_Z (Z.of_nat step) / inject_Z edo)%Q
    /\ (step = 0%nat -> row_frequency row = baseHz /\ (row_cents row == 0)%Q).
Proof.
  intros Hedo Hstep.
  eexists. split.
  - unfold scaleTable. rewrite list_lookup_imap, freqs_lookup by exact Hstep.
    reflexivity.
  - simpl. split; [now apply freqs_lookup|].
    split; [reflexivity|]. split; [reflexivity|].
    split; [reflexivity|].
    intros ->. split; [apply freqForStep_0 | apply cents_0].
Qed.

Lemma freqForStep_lt (baseHz : R) (edo step1 step2 : Z) :
  (0 < baseHz)%R -> 0 < edo -> step1 < step2 ->
  (freqForStep baseHz step1 edo < freqForStep baseHz step2 edo)%R.
Proof.
  intros Hb He Hs. unfold freqForStep.
  apply Rmult_lt_compat_l; [exact Hb|].
  apply Rpower_lt; [lra|].
  unfold Rdiv. apply Rmult_lt_compat_r.
  - apply Rinv_0_lt_compat. now apply (IZR_lt 0).
  - now apply IZR_lt.
Qed.

Lemma cents_lt (edo step1 step2 : Z) :
  0 < edo -> step1 < step2 -> (cents step1 edo < cents step2 edo)%Q.
Proof.
  intros He Hs. unfold cents, Qdiv.
  apply Qmult_lt_compat_r.
  - apply Qinv_lt_0_compat. now rewrite (Zlt_Qlt 0 edo) in He.
  - apply Qmult_lt_l; [reflexivity|]. now rewrite <- Zlt_Qlt.
Qed.

Lemma Rpower_2_ge_1 (x : R) : (0 <= x)%R -> (1 <= Rpower 2 x)%R.
Proof.
  intros Hx. rewrite <- (Rpower_O 2) by lra. apply Rle_Rpower; lra.
Qed.

(** One step of a scale of at most 53 divisions multiplies the frequency
    by at least [1 + 1/106]. *)
Lemma Rpower_2_step (x : R) : (/ 53 <= x)%R -> (1 + / 106 <= Rpower 2 x)%R.
Proof.
  intros Hx.
  apply Rle_trans with (Rpower 2 (/ 53)); [|apply Rle_Rpower; lra].
  unfold Rpower. pose proof ln_lt_2 as Hln.
  apply Rle_trans with (1 + / 53 * ln 2)%R; [nra|apply exp_ineq1_le].
Qed.

(** Within the ranges of the tuning, two steps of a scale are at least
    [25/53] Hz apart, and no frequency up to the octave exceeds 4000 Hz. *)
Lemma freqForStep_gap (baseHz : R) (edo step1 step2 : Z) :
  (50 <= baseHz)%R -> 0 < edo <= 53 -> 0 <= step1 < step2 ->
  (freqForStep baseHz step1 edo + 25 / 53
   <= freqForStep baseHz step2 edo)%R.
Proof.
  intros Hb He Hs. unfold freqForStep.
  assert (He' : (0 < IZR edo <= 53)%R)
    by (split; [apply (IZR_lt 0)|apply (IZR_le edo 53)]; lia).
  assert (Hinv : (/ 53 <= / IZR edo)%R)
    by (apply Rinv_le_contravar; lra).
  assert (Hd : (1 <= IZR (step2 - step1))%R) by (apply (IZR_le 1); lia).
  assert (Hsplit : (IZR step2 / IZR edo
                    = IZR step1 / IZR edo + IZR (step2 - step1) / IZR edo)%R)
    by (rewrite minus_IZR; field; lra).
  rewrite Hsplit, Rpower_plus.
  assert (H1 : (1 <= Rpower 2 (IZR step1 / IZR edo))%R).
  { apply Rpower_2_ge_1. apply Rmult_le_pos.
    - apply (IZR_le 0). lia.
    - apply Rlt_le, Rinv_0_lt_compat. lra. }
  assert (H2 : (1 + / 106 <= Rpower 2 (IZR (step2 - step1) / IZR edo))%R).
  { apply Rpower_2_step. unfold Rdiv.
    apply Rle_trans with (1 * / IZR edo)%R; [lra|].
    apply Rmult_le_compat_r; [|exact Hd].
    apply Rlt_le, Rinv_0_lt_compat. lra. }
  set (p1 := Rpower 2 (IZR step1 / IZR edo)) in *.
  set (p2 := Rpower 2 (IZR (step2 - step1) / IZR edo)) in *.
  assert (H3 : (50 <= baseHz * p1)%R) by nra.
  assert (H4 : (50 * / 106 <= baseHz * p1 * (p2 - 1))%R)
    by (apply Rmult_le_compat; lra).
  replace (baseHz * (p1 * p2))%R
    with (baseHz * p1 + baseHz * p1 * (p2 - 1))%R by ring.
  lra.
Qed.

Lemma freqForStep_le_4000 (baseHz : R) (edo step : Z) :
  (0 < baseHz <= 2000)%R -> 0 < edo -> step <= edo ->
  (freqForStep baseHz step edo <= 4000)%R.
Proof.
  intros Hb He Hs. unfold freqForStep.
  assert (He' : (0 < IZR edo)%R) by (apply (IZR_lt 0); lia).
  assert (Hx : (IZR step / IZR edo <= 1)%R).
  { apply (Rmult_le_reg_r (IZR edo)); [exact He'|].
    unfold Rdiv. rewrite Rmult_assoc, Rinv_l, Rmult_1_r, Rmult_1_l by lra.
    apply IZR_le. exact Hs. }
  assert (Hp : (Rpower 2 (IZR step / IZR edo) <= 2)%R).
  { rewrite <- (Rpower_1 2) at 2 by lra. apply Rle_Rpower; lra. }
  assert (H0 : (0 < Rpower 2 (IZR step / IZR edo))%R)
    by (unfold Rpower; apply exp_pos).
  nra.
Qed.

Lemma cents_gap (edo step1 step2 : Z) :
  0 < edo <= 53 -> step1 < step2 ->
  (cents step1 edo + 22 <= cents step2 edo)%Q.
Proof.
  intros He Hs. unfold cents.
  assert (Hne : ~ (inject_Z edo == 0)%Q).
  { intros H. apply (inject_Z_injective edo 0) in H. lia. }
  assert (Hpos : (0 < inject_Z edo)%Q) by (rewrite <- (Zlt_Qlt 0); lia).
  assert (Hnum : (1200 * inject_Z step1 + 22 * inject_Z edo
                  <= 1200 * inject_Z step2)%Q).
  { change 1200%Q with (inject_Z 1200). change 22%Q with (inject_Z 22).
    rewrite <- !inject_Z_mult, <- inject_Z_plus, <- Zle_Qle. lia. }
  assert (Heq : (1200 * inject_Z step1 / inject_Z edo + 22
                 == (1200 * inject_Z step1 + 22 * inject_Z edo)
                    / inject_Z edo)%Q)
    by (field; exact Hne).
  rewrite Heq. unfold Qdiv. apply Qmult_le_compat_r; [exact Hnum|].
  apply Qlt_le_weak, Qinv_lt_0_compat, Hpos.
Qed.

(** C6: within the ranges of the tuning (base frequency in [50, 2000],
    division count in [5, 53]) and for steps from 0 up to the octave, a
    higher step has a strictly higher frequency and a strictly higher cents
    value.  The two frequencies lie in [50, 4000] and are at least [25/53]
    Hz apart, so any two numbers within 0.1 Hz of them, as the rounded
    values the page computes are, compare the same way; the two cents
    values are at least 22 apart. *)
Theorem scale_monotone (baseHz : R) (edo step1 step2 : Z) :
  (50 <= baseHz <= 2000)%R -> 5 <= edo <= 53 ->
  0 <= step1 < step2 -> step2 <= edo ->
  let f1 := freqForStep baseHz step1 edo in
  let f2 := freqForStep baseHz step2 edo in
  (f1 < f2)%R
  /\ (cents step1 edo < cents step2 edo)%Q
  /\ (50 <= f1)%R /\ (f2 <= 4000)%R
  /\ (f1 + 25 / 53 <= f2)%R
  /\ (forall x1 x2 : R,
        (Rabs (x1 - f1) <= / 10)%R -> (Rabs (x2 - f2) <= / 10)%R ->
        (x1 < x2)%R)
  /\ (cents step1 edo + 22 <= cents step2 edo)%Q.
Proof.
  intros Hb He Hs Hs2 f1 f2.
  assert (Hgap : (f1 + 25 / 53 <= f2)%R)
    by (apply freqForStep_gap; [lra|lia|lia]).
  assert (Hlow : (50 <= f1)%R).
  { destruct (Z.eq_dec step1 0) as [->|Hne].
    - subst f1. rewrite freqForStep_0. lra.
    - pose proof (freqForStep_gap baseHz edo 0 step1) as H.
      rewrite freqForStep_0 in H. fold f1 in H.
      assert (f1 >= baseHz + 25 / 53)%R by (apply Rle_ge, H; [lra|lia|lia]).
      lra. }
  split; [lra|]. split; [apply cents_lt; lia|].
  split; [exact Hlow|].
  split; [apply freqForStep_le_4000; [lra|lia|lia]|].
  split; [exact Hgap|]. split.
  - intros x1 x2 H1 H2.
    pose proof (Rle_abs (x1 - f1)) as H3.
    pose proof (Rle_abs (- (x2 - f2))) as H4.
    rewrite Rabs_Ropp in H4. lra.
  - apply cents_gap; lia.
Qed.

Lemma freqs_entries_and_length_witness :
  Z.of_nat (length (freqs 440 12 (inject_Z 100))) = 12
  /\ freqs_loop 20 440 12 0 12 [] = freqs 440 12 12.
Proof.
  split.
  - exact (proj1 (proj2 (proj2 (proj2
             (freqs_entries_and_length 440 12 12)))) 100).
  - apply (proj2 (proj2 (proj2 (proj2
             (freqs_entries_and_length 440 12 12)))) 20%nat).
    vm_compute. lia.
Defined.

Lemma scale_row_formula_witness :
  exists row,
    scaleTable (freqs 440 12 12) 12 !! 7%nat = Some row
    /\ row_step row = 7 /\ (row_cents row == 700)%Q.
Proof.
  destruct (scale_row_formula 440 12 12 7) as (row & H1 & _ & H2 & _ & H3 & _);
    [lia | vm_compute; reflexivity |].
  exists row. split; [exact H1|]. split; [exact H2|].
  rewrite H3. reflexivity.
Defined.

Lemma scale_monotone_witness :
  (freqForStep 440 0 12 < freqForStep 440 7 12)%R
  /\ (cents 0 12 < cents 7 12)%Q.
Proof.
  destruct (scale_monotone 440 12 0 7) as (H1 & H2 & _); [lra|lia|lia|lia|].
  split; [exact H1|exact H2].
Defined.

End ScaleFacts.

(** * Properties of the playback controller *)

Module PlaybackFacts.

Import Playback.

Section Facts.

Context {Freq : Type}.

Implicit Types (w : World Freq) (e : Event Freq) (k j : nat)
  (fs rest : list Freq).

Lemma notes_of_app k (l1 l2 : list (Action Freq)) :
  notes_of k (l1 ++ l2) = notes_of k l1 ++ notes_of k l2.
Proof.
  induction l1 as [|a l1 IH]; [reflexivity|].
  destruct a; simpl; try exact IH.
  destruct (Nat.eqb k k0); simpl; now rewrite IH.
Qed.



Ltac unfold_step :=
  unfold step, playScale, stop, settle, timeout, playScale_loop,
    playScale_exit, ensureAudioContext, spawn, emit, set_task, set_playing,
    set_stopFlag, set_audioCtx in *.

(** Closes the side goals on task lookups and note lists that a case
    analysis of a step leaves. *)
Ltac tidy_lists :=
  rewrite ?notes_of_app; simpl;
  repeat match goal with
  | |- context [Nat.eqb ?a ?b] => destruct (Nat.eqb_spec a b); [try lia|]
  end;
  rewrite ?app_nil_r, ?length_insert, ?length_app; simpl;
  rewrite ?list_lookup_insert_ne by lia;
  rewrite ?lookup_app_l by lia.

Lemma classic_targets e k : targets e k \/ ~ targets e k.
Proof.
  destruct e; simpl; try tauto; destruct (Nat.eq_dec k0 k); tauto.
Qed.

Lemma run_cons w e es : run w (e :: es) = run (step w e) es.
Proof. reflexivity. Qed.


Lemma step_length w e : length (tasks w) <= length (tasks (step w e)).
Proof.
  destruct e; unfold_step; simpl; repeat (case_match; simpl);
    rewrite ?length_insert, ?length_app; simpl; lia.
Qed.


(** *** Calls do not disturb each other's task state and notes *)

Lemma step_frame w e k :
  k < length (tasks w) -> ~ targets e k ->
  tasks (step w e) !! k = tasks w !! k
  /\ notes_of k (log (step w e)) = notes_of k (log w).
Proof.
  intros Hk Ht.
  destruct e; unfold_step; simpl in *; repeat (case_match; simpl);
    tidy_lists; auto.
Qed.

(** Notes are only logged for calls that exist. *)
Lemma step_log_wf w e : log_wf w -> log_wf (step w e).
Proof.
  intros Hw k Hk. pose proof (step_length w e) as Hl.
  assert (Hk' : length (tasks w) <= k) by lia.
  specialize (Hw k Hk'). revert Hk. clear Hl.
  destruct e; unfold_step; simpl in *; repeat (case_match; simpl);
    tidy_lists; intros; rewrite ?Hw; auto; try lia.
  all: match goal with
       | H : _ !! _ = Some _ |- _ => apply lookup_lt_Some in H; lia
       end.
Qed.

(** *** Every note has the envelope and is followed by the wait *)

Lemma paced_app (l1 l2 : list (Action Freq)) :
  paced l1 -> paced l2 -> paced (l1 ++ l2).
Proof.
  induction l1 as [|a l1 IH]; intros H1 H2; [exact H2|].
  destruct a; simpl in *; auto.
  destruct H1 as (Hv & (l'' & ->) & Hp).
  split; [exact Hv|]. split; [eexists; reflexivity|].
  exact (IH Hp H2).
Qed.

Lemma paced_lookup (l : list (Action Freq)) i k (v : Voice Freq) :
  paced l -> l !! i = Some (StartNote k v) ->
  (exists f now, v = voice f now)
  /\ l !! S i = Some (SetTimeout k (noteMs + gapMs)).
Proof.
  revert i. induction l as [|a l IH]; intros i Hp Hi; [discriminate|].
  destruct i as [|i].
  - simpl in Hi. inversion Hi; subst a. simpl in Hp.
    destruct Hp as (Hv & (l'' & ->) & _). split; [exact Hv|reflexivity].
  - simpl in Hi. change ((a :: l) !! S (S i)) with (l !! S i).
    apply IH; [|exact Hi].
    destruct a; simpl in Hp; try exact Hp. tauto.
Qed.

Lemma step_paced w e : paced (log w) -> paced (log (step w e)).
Proof.
  intros Hp.
  destruct e; unfold_step; simpl in *; repeat (case_match; simpl);
    rewrite <- ?app_assoc; auto;
    apply paced_app; auto; simpl; eauto 10.
Qed.

Lemma run_paced w es : paced (log w) -> paced (log (run w es)).
Proof.
  revert w. induction es as [|e es IH]; intros w Hp; [exact Hp|].
  apply IH, step_paced, Hp.
Qed.

(** *** The two ways out of a pass through the loop, as equations *)

Lemma playScale_exit_cases k w :
  playScale_exit k w = set_task Freq k Fulfilled (set_playing Freq false w)
  \/ (stopFlag w = true /\ audioCtx w = Some running
      /\ playScale_exit k w
         = set_task Freq k PlayAwaitSuspend
             (emit Freq (CallSuspend k) (set_playing Freq false w))).
Proof.
  unfold playScale_exit. simpl.
  destruct (stopFlag w); [|left; reflexivity].
  destruct (audioCtx w) as [[]|]; auto.
Qed.

Lemma playScale_loop_cases k now fs w :
  (exists f rest,
     fs = f :: rest /\ stopFlag w = false
     /\ playScale_loop k now fs w
        = set_task Freq k (PlayAwaitTimeout rest)
            (emit Freq (SetTimeout k (noteMs + gapMs)%Q)
               (emit Freq (StartNote k (voice f now)) w)))
  \/ ((fs = [] \/ stopFlag w = true)
      /\ playScale_loop k now fs w = playScale_exit k w).
Proof.
  unfold playScale_loop.
  destruct fs as [|f rest]; [right; auto|].
  destruct (stopFlag w) eqn:Hs; [right; auto|].
  left. exists f, rest. auto.
Qed.

Lemma note_calls_app (l1 l2 : list (Action Freq)) :
  note_calls (l1 ++ l2) = note_calls l1 ++ note_calls l2.
Proof.
  induction l1 as [|a l1 IH]; [reflexivity|].
  destruct a; simpl; rewrite ?IH; reflexivity.
Qed.

Lemma voice_envelope (f : Freq) (now : Q) :
  exists t1 t2 t3 : Q,
    osc_type (voice f now) = sine
    /\ osc_frequency (voice f now) = (f, now)
    /\ osc_start (voice f now) = now
    /\ gain_gain (voice f now) =
       [ setValueAtTime 0.0001%Q now;
         exponentialRampToValueAtTime 0.2%Q t1;
         setValueAtTime 0.2%Q t2;
         exponentialRampToValueAtTime 0.0001%Q t3 ]
    /\ (t1 == now + 0.008)%Q
    /\ (t2 == now + Qmax 0.008 (0.240 - 0.025))%Q
    /\ (t2 == now + 0.215)%Q
    /\ (t3 == now + 0.240)%Q
    /\ (osc_stop (voice f now) == now + 0.240 + 0.010)%Q.
Proof.
  eexists _, _, _. repeat split; try reflexivity; simpl;
    repeat (apply Qplus_comp; [try reflexivity|]); reflexivity.
Qed.

(** *** What a step adds to the log *)

Lemma no_note_lookup (l : list (Action Freq)) i k (v : Voice Freq) :
  note_calls l = [] -> l !! i = Some (StartNote k v) -> False.
Proof.
  revert i. induction l as [|a l IH]; intros i Hn Hi; [discriminate|].
  destruct i as [|i].
  - simpl in Hi. inversion Hi; subst a. discriminate.
  - apply (IH i); [|exact Hi]. destruct a; simpl in Hn; congruence.
Qed.

(** A pass through the loop starts at most one note; when it starts one,
    the timer is the last thing it sets up and the call is left waiting
    for it. *)
Lemma loop_emits k now fs w :
  k < length (tasks w) ->
  (exists f rest,
     log (playScale_loop k now fs w)
     = log w ++ [StartNote k (voice f now);
                 SetTimeout k (noteMs + gapMs)%Q]
     /\ tasks (playScale_loop k now fs w) !! k
        = Some (PlayAwaitTimeout rest))
  \/ (exists added,
        log (playScale_loop k now fs w) = log w ++ added
        /\ note_calls added = []).
Proof.
  intros Hk.
  destruct (playScale_loop_cases k now fs w)
    as [(f & rest & _ & _ & ->)|[_ ->]].
  - left. exists f, rest. simpl. rewrite <- app_assoc.
    split; [reflexivity|]. now rewrite list_lookup_insert_eq by exact Hk.
  - right. destruct (playScale_exit_cases k w) as [->|(_ & _ & ->)]; simpl.
    + exists []. now rewrite app_nil_r.
    + exists [CallSuspend k]. auto.
Qed.

Lemma step_emits w e :
  (exists pre k f now rest,
     log (step w e)
     = log w ++ pre ++ [StartNote k (voice f now);
                        SetTimeout k (noteMs + gapMs)%Q]
     /\ note_calls pre = []
     /\ tasks (step w e) !! k = Some (PlayAwaitTimeout rest))
  \/ (exists added,
        log (step w e) = log w ++ added /\ note_calls added = []).
Proof.
  destruct e as [fs fresh now| |k ok now|k now]; simpl.
  - unfold playScale. destruct (playing w).
    { right. exists []. simpl. now rewrite app_nil_r. }
    set (w1 := ensureAudioContext fresh _).
    assert (H1 : tasks w1 = tasks w
                 /\ exists pre0, log w1 = log w ++ pre0
                                 /\ note_calls pre0 = []).
    { subst w1. unfold ensureAudioContext. simpl.
      destruct (audioCtx w); simpl; (split; [reflexivity|]).
      - exists []. now rewrite app_nil_r.
      - exists [NewAudioContext fresh]. auto. }
    destruct H1 as (Ht1 & pre0 & Hl1 & Hp0).
    assert (Hloop :
      (exists pre k f now0 rest,
         log (playScale_loop (length (tasks w)) now fs
                (spawn Freq Running w1))
         = log w ++ pre ++ [StartNote k (voice f now0);
                            SetTimeout k (noteMs + gapMs)%Q]
         /\ note_calls pre = []
         /\ tasks (playScale_loop (length (tasks w)) now fs
                     (spawn Freq Running w1)) !! k
            = Some (PlayAwaitTimeout rest))
      \/ (exists added,
            log (playScale_loop (length (tasks w)) now fs
                   (spawn Freq Running w1)) = log w ++ added
            /\ note_calls added = [])).
    { destruct (loop_emits (length (tasks w)) now fs (spawn Freq Running w1))
        as [(f & rest & Hl & Ht)|(added & Hl & Hn)].
      - simpl. rewrite Ht1, length_app. simpl. lia.
      - left. exists pre0, (length (tasks w)), f, now, rest.
        rewrite Hl. simpl. rewrite Hl1, <- app_assoc. auto.
      - right. exists (pre0 ++ added). rewrite Hl. simpl.
        rewrite Hl1, <- app_assoc, note_calls_app, Hp0, Hn. auto. }
    destruct (audioCtx w1) as [[]|]; try exact Hloop.
    right. exists (pre0 ++ [CallResume (length (tasks w))]). simpl.
    rewrite Hl1, <- app_assoc, note_calls_app, Hp0. auto.
  - right. unfold stop. simpl. destruct (audioCtx w) as [[]|]; simpl;
      try (exists []; now rewrite app_nil_r).
    exists [CallSuspend (length (tasks w))]. auto.
  - unfold settle. destruct (tasks w !! k) as [t0|] eqn:Hk;
      [|right; exists []; now rewrite app_nil_r].
    pose proof (lookup_lt_Some _ _ _ Hk) as Hlt.
    destruct t0; try (right; exists []; simpl; now rewrite app_nil_r).
    + destruct ok.
      * destruct (loop_emits k now freqs (set_audioCtx Freq (Some running) w))
          as [(f & rest & Hl & Ht)|(added & Hl & Hn)]; [exact Hlt| |].
        -- left. exists [], k, f, now, rest. rewrite Hl. auto.
        -- right. exists added. rewrite Hl. auto.
      * right. exists [Uncaught k]. auto.
    + right. exists []. destruct ok; simpl; now rewrite app_nil_r.
    + right. exists []. destruct ok; simpl; now rewrite app_nil_r.
  - unfold timeout. destruct (tasks w !! k) as [t0|] eqn:Hk;
      [|right; exists []; now rewrite app_nil_r].
    pose proof (lookup_lt_Some _ _ _ Hk) as Hlt.
    destruct t0; try (right; exists []; simpl; now rewrite app_nil_r).
    destruct (loop_emits k now rest (emit Freq (Disconnect k) w))
      as [(f & rest' & Hl & Ht)|(added & Hl & Hn)]; [exact Hlt| |].
    + left. exists [Disconnect k], k, f, now, rest'. rewrite Hl. simpl.
      rewrite <- app_assoc. auto.
    + right. exists (Disconnect k :: added). rewrite Hl. simpl.
      rewrite <- app_assoc. auto.
Qed.

(** Every entry of the log of a run was added by one step of the run. *)
Lemma log_entry_step (es : list (Event Freq)) : forall i (a : Action Freq),
  log (run (initial Freq) es) !! i = Some a ->
  exists es1 e es2,
    es = es1 ++ e :: es2
    /\ length (log (run (initial Freq) es1)) <= i
    /\ log (step (run (initial Freq) es1) e) !! i = Some a.
Proof.
  induction es as [|e es IH] using rev_ind; intros i a Hi; [discriminate|].
  unfold run in Hi. rewrite fold_left_app in Hi. simpl in Hi.
  fold (run (initial Freq) es) in Hi.
  destruct (decide (i < length (log (run (initial Freq) es)))) as [Hlt|Hge].
  - assert (Hold : log (run (initial Freq) es) !! i = Some a).
    { destruct (step_emits (run (initial Freq) es) e)
        as [(pre & k & f & now & rest & Hl & _)|(added & Hl & _)];
        rewrite Hl in Hi; now rewrite lookup_app_l in Hi by exact Hlt. }
    destruct (IH i a Hold) as (es1 & e1 & es2 & -> & Hle & Hst).
    exists es1, e1, (es2 ++ [e]). rewrite <- app_assoc. auto.
  - exists es, e, []. split; [reflexivity|]. split; [lia|exact Hi].
Qed.

(** While a call waits for its timer, nothing but the firing of that timer
    makes it go on: it starts no note and stays waiting. *)
Lemma waits_for_its_timer k rest (es : list (Event Freq)) : forall w,
  tasks w !! k = Some (PlayAwaitTimeout rest) ->
  Forall (fun e => forall now, e <> Timeout k now) es ->
  notes_of k (log (run w es)) = notes_of k (log w)
  /\ tasks (run w es) !! k = Some (PlayAwaitTimeout rest).
Proof.
  induction es as [|e es IH]; intros w Hk Hes; [auto|].
  inversion Hes as [|? ? He Hes']; subst.
  pose proof (lookup_lt_Some _ _ _ Hk) as Hlt.
  assert (H1 : tasks (step w e) !! k = Some (PlayAwaitTimeout rest)
               /\ notes_of k (log (step w e)) = notes_of k (log w)).
  { destruct (classic_targets e k) as [Ht|Ht].
    - destruct e as [| |k' ok now|k' now]; simpl in Ht; try contradiction;
        subst k'.
      + simpl. unfold settle. rewrite Hk. auto.
      + exfalso. now apply (He now).
    - destruct (step_frame w e k Hlt Ht) as [-> ->]. auto. }
  destruct H1 as [Hk1 Hn1]. rewrite run_cons.
  destruct (IH _ Hk1 Hes') as [Hn Ht]. rewrite Hn, Hn1. auto.
Qed.

(** C8: in every run of the page, each note that is started has a sine
    generator starting at the session time [now], a gain that starts at the
    positive floor 0.0001, ramps exponentially to the peak 0.2 at
    [now + 8 ms], is held at 0.2 until [now + max(attack, 240 ms - 25 ms)],
    which is [now + 215 ms], and ramps back to 0.0001 at [now + 240 ms]; the
    generator is stopped at [now + 240 ms + 10 ms]; and the loop then waits:
    the next and last thing the step that started the note does is to set
    a timer of [240 + 30] ms, the call is left waiting for that timer, and
    whatever else happens, until that timer fires the call starts no
    further note. *)
Theorem note_envelope_and_pacing (es : list (Event Freq)) (i k : nat)
    (v : Voice Freq) :
  log (run (initial Freq) es) !! i = Some (StartNote k v) ->
  exists (now t1 t2 t3 ms : Q) es1 e es2 rest,
    osc_type v = sine
    /\ osc_start v = now
    /\ gain_gain v =
       [ setValueAtTime 0.0001%Q now;
         exponentialRampToValueAtTime 0.2%Q t1;
         setValueAtTime 0.2%Q t2;
         exponentialRampToValueAtTime 0.0001%Q t3 ]
    /\ (0 < 0.0001)%Q
    /\ (t1 == now + 0.008)%Q
    /\ (t2 == now + Qmax 0.008 (0.240 - 0.025))%Q
    /\ (t2 == now + 0.215)%Q
    /\ (t3 == now + 0.240)%Q
    /\ (osc_stop v == now + 0.240 + 0.010)%Q
    /\ log (run (initial Freq) es) !! S i = Some (SetTimeout k ms)
    /\ (ms == 240 + 30)%Q
    /\ es = es1 ++ e :: es2
    /\ length (log (run (initial Freq) es1)) <= i
    /\ length (log (step (run (initial Freq) es1) e)) = S (S i)
    /\ tasks (step (run (initial Freq) es1) e) !! k
       = Some (PlayAwaitTimeout rest)
    /\ forall es', Forall (fun e' => forall now', e' <> Timeout k now') es' ->
         notes_of k (log (run (step (run (initial Freq) es1) e) es'))
         = notes_of k (log (step (run (initial Freq) es1) e))
         /\ tasks (run (step (run (initial Freq) es1) e) es') !! k
            = Some (PlayAwaitTimeout rest).
Proof.
  intros Hi.
  assert (Hp : paced (log (run (initial Freq) es)))
    by (apply run_paced; exact I).
  destruct (paced_lookup _ _ _ _ Hp Hi) as [(f & now & ->) Hnext].
  destruct (voice_envelope f now)
    as (t1 & t2 & t3 & Hty & _ & Hst & Hg & H1 & H2 & H2' & H3 & Hsp).
  destruct (log_entry_step es i _ Hi) as (es1 & e & es2 & Hes & Hle & Hstep).
  set (w1 := run (initial Freq) es1) in *.
  assert (Hshape : exists rest,
            length (log (step w1 e)) = S (S i)
            /\ tasks (step w1 e) !! k = Some (PlayAwaitTimeout rest)).
  { destruct (step_emits w1 e)
      as [(pre & k' & f' & now' & rest & Hl & Hpre & Ht)|(added & Hl & Hn)].
    - rewrite Hl in Hstep. rewrite lookup_app_r in Hstep by exact Hle.
      destruct (decide (i - length (log w1) < length pre)) as [Hlt|Hge].
      + rewrite lookup_app_l in Hstep by exact Hlt.
        exfalso. eapply no_note_lookup; eassumption.
      + rewrite lookup_app_r in Hstep by lia.
        destruct (i - length (log w1) - length pre) as [|[|n]] eqn:Hn;
          simpl in Hstep; try discriminate.
        inversion Hstep; subst k'. exists rest. split; [|exact Ht].
        rewrite Hl, !length_app. simpl. lia.
    - rewrite Hl in Hstep. rewrite lookup_app_r in Hstep by exact Hle.
      exfalso. eapply no_note_lookup; eassumption. }
  destruct Hshape as (rest & Hlen & Ht).
  exists now, t1, t2, t3, (noteMs + gapMs)%Q, es1, e, es2, rest.
  repeat split; try assumption; try reflexivity;
    apply (waits_for_its_timer k rest es' (step w1 e) Ht); assumption.
Qed.

(** *** What one pass through the loop does *)

Lemma playScale_exit_spec k w :
  exists tk,
    tasks (playScale_exit k w) = <[k := tk]> (tasks w)
    /\ (tk = Fulfilled
        \/ tk = PlayAwaitSuspend /\ stopFlag w = true
           /\ audioCtx w = Some running)
    /\ (stopFlag w = false -> tk = Fulfilled)
    /\ stopFlag (playScale_exit k w) = stopFlag w
    /\ playing (playScale_exit k w) = false
    /\ audioCtx (playScale_exit k w) = audioCtx w
    /\ forall j, notes_of j (log (playScale_exit k w)) = notes_of j (log w).
Proof.
  unfold playScale_exit; simpl.
  destruct (stopFlag w) eqn:Hs; [destruct (audioCtx w) as [[]|] eqn:Hc|];
    simpl; eexists; (split; [reflexivity|]);
    repeat split; auto; try discriminate;
    intros j; rewrite ?notes_of_app; simpl; now rewrite ?app_nil_r.
Qed.

Lemma playScale_loop_spec k now fs w :
  (exists f rest,
     fs = f :: rest /\ stopFlag w = false
     /\ tasks (playScale_loop k now fs w)
        = <[k := PlayAwaitTimeout rest]> (tasks w)
     /\ stopFlag (playScale_loop k now fs w) = false
     /\ playing (playScale_loop k now fs w) = playing w
     /\ audioCtx (playScale_loop k now fs w) = audioCtx w
     /\ forall j, notes_of j (log (playScale_loop k now fs w))
                  = notes_of j (log w) ++ (if Nat.eqb j k then [f] else []))
  \/ ((fs = [] \/ stopFlag w = true)
      /\ playScale_loop k now fs w = playScale_exit k w).
Proof.
  unfold playScale_loop.
  destruct fs as [|f rest]; [right; auto|].
  destruct (stopFlag w) eqn:Hs; [right; auto|].
  left. exists f, rest. simpl. repeat split; auto.
  intros j. rewrite !notes_of_app. simpl.
  destruct (Nat.eqb j k); simpl; now rewrite ?app_nil_r.
Qed.

(** *** A call draws its notes, in order, from the list it was given *)

Lemma loop_draws_from k now l w fs :
  (k < length (tasks w))%nat ->
  notes_of k (log w) ++ l = fs ->
  draws_from k fs (playScale_loop k now l w).
Proof.
  intros Hk Hn.
  destruct (playScale_loop_spec k now l w)
    as [(f & rest & -> & _ & Ht & _ & _ & _ & Hnotes)|[_ ->]].
  - split; [rewrite Ht, length_insert; exact Hk|].
    exists rest. rewrite Hnotes, Nat.eqb_refl, <- app_assoc.
    split; [exact Hn|]. rewrite Ht, list_lookup_insert_eq by exact Hk.
    simpl. now intros ? [= ->].
  - destruct (playScale_exit_spec k w)
      as (tk & Ht & Htk & _ & _ & _ & _ & Hnotes).
    split; [rewrite Ht, length_insert; exact Hk|].
    exists l. rewrite Hnotes. split; [exact Hn|].
    rewrite Ht, list_lookup_insert_eq by exact Hk.
    destruct Htk as [->|(-> & _)]; simpl; discriminate.
Qed.

Lemma draws_from_settled k fs w w' :
  draws_from k fs w ->
  length (tasks w') = length (tasks w) ->
  notes_of k (log w') = notes_of k (log w) ->
  pending (tasks w' !! k) = None ->
  draws_from k fs w'.
Proof.
  intros (Hk & rest & Hn & _) Hl Hnotes Hp.
  split; [lia|]. exists rest. rewrite Hnotes, Hp. split; [exact Hn|].
  discriminate.
Qed.

Lemma step_draws_from w e k fs :
  draws_from k fs w -> draws_from k fs (step w e).
Proof.
  intros Hd. pose proof Hd as (Hk & rest & Hn & Hp).
  destruct (classic_targets e k) as [Ht|Ht].
  - destruct e as [| |k' ok now|k' now]; simpl in Ht; try contradiction;
      subst k'; simpl.
    + unfold settle.
      destruct (tasks w !! k) as [[]|] eqn:Hlk; try exact Hd.
      * specialize (Hp _ eq_refl). subst rest.
        destruct ok.
        -- apply loop_draws_from; [exact Hk|exact Hn].
        -- apply (draws_from_settled k fs w); simpl; auto.
           ++ now rewrite length_insert.
           ++ rewrite notes_of_app. simpl. now rewrite app_nil_r.
           ++ rewrite list_lookup_insert_eq by exact Hk. reflexivity.
      * apply (draws_from_settled k fs w); auto; destruct ok; simpl;
          rewrite ?length_insert, ?list_lookup_insert_eq by exact Hk;
          reflexivity.
      * apply (draws_from_settled k fs w); auto; destruct ok; simpl;
          rewrite ?length_insert, ?list_lookup_insert_eq by exact Hk;
          reflexivity.
    + unfold timeout.
      destruct (tasks w !! k) as [[]|] eqn:Hlk; try exact Hd.
      specialize (Hp _ eq_refl). subst rest.
      apply loop_draws_from; [exact Hk|].
      simpl. rewrite notes_of_app. simpl. now rewrite app_nil_r.
  - split; [pose proof (step_length w e); lia|].
    destruct (step_frame w e k Hk Ht) as [-> ->]. eauto.
Qed.

Lemma run_draws_from w es k fs :
  draws_from k fs w -> draws_from k fs (run w es).
Proof.
  revert w. induction es as [|e es IH]; intros w Hd; [exact Hd|].
  apply IH, step_draws_from, Hd.
Qed.

Lemma ensureAudioContext_spec fresh w :
  tasks (ensureAudioContext fresh w) = tasks w
  /\ stopFlag (ensureAudioContext fresh w) = stopFlag w
  /\ playing (ensureAudioContext fresh w) = playing w
  /\ forall j, notes_of j (log (ensureAudioContext fresh w))
               = notes_of j (log w).
Proof.
  unfold ensureAudioContext. destruct (audioCtx w); simpl; repeat split; auto.
  intros j. rewrite notes_of_app. simpl. now rewrite app_nil_r.
Qed.

Lemma playScale_draws_from w fs fresh now :
  log_wf w -> draws_from (length (tasks w)) fs (playScale fs fresh now w).
Proof.
  intros Hw. specialize (Hw (length (tasks w)) (Nat.le_refl _)).
  unfold playScale.
  destruct (playing w).
  { split; [simpl; rewrite length_app; simpl; lia|].
    exists fs. simpl. rewrite Hw. split; [reflexivity|].
    rewrite lookup_app_r, Nat.sub_diag by lia. discriminate. }
  set (w1 := ensureAudioContext fresh _).
  destruct (ensureAudioContext_spec fresh
              (set_playing Freq true (set_stopFlag Freq false w)))
    as (Ht & _ & _ & Hnotes).
  fold w1 in Ht, Hnotes. simpl in Ht, Hnotes.
  assert (Hspawn : draws_from (length (tasks w)) fs
                     (playScale_loop (length (tasks w)) now fs
                        (spawn Freq Running w1))).
  { apply loop_draws_from; simpl.
    - rewrite Ht, length_app. simpl. lia.
    - now rewrite Hnotes, Hw. }
  destruct (audioCtx w1) as [[]|]; try exact Hspawn.
  split; [simpl; rewrite Ht, length_app; simpl; lia|].
  exists fs. simpl. rewrite notes_of_app, Hnotes, Hw. simpl.
  split; [reflexivity|].
  rewrite Ht, lookup_app_r, Nat.sub_diag by lia. simpl. now intros ? [= ->].
Qed.

Lemma run_log_wf w es : log_wf w -> log_wf (run w es).
Proof.
  revert w. induction es as [|e es IH]; intros w Hw; [exact Hw|].
  apply IH, step_log_wf, Hw.
Qed.

Lemma initial_log_wf : log_wf (initial Freq).
Proof. intros k _. reflexivity. Qed.

(** *** Without a stop request the loop never leaves early *)

Lemma step_stopFlag_false w e :
  e <> Stop -> stopFlag w = false -> stopFlag (step w e) = false.
Proof.
  intros He Hs.
  destruct e; try congruence; unfold_step; simpl;
    repeat (case_match; simpl); auto.
Qed.

Lemma loop_uncancelled k now l w fs :
  (k < length (tasks w))%nat ->
  stopFlag w = false ->
  notes_of k (log w) ++ l = fs ->
  uncancelled k fs (playScale_loop k now l w).
Proof.
  intros Hk Hs Hn.
  destruct (playScale_loop_spec k now l w)
    as [(f & rest & -> & _ & Ht & Hs' & _ & _ & Hnotes)|[[->|Hx] ->]];
    [| |congruence].
  - split; [exact Hs'|].
    rewrite Ht, list_lookup_insert_eq by exact Hk.
    now rewrite Hnotes, Nat.eqb_refl, <- app_assoc.
  - destruct (playScale_exit_spec k w)
      as (tk & Ht & _ & Htk & Hs' & _ & _ & Hnotes).
    split; [congruence|].
    rewrite Ht, list_lookup_insert_eq, (Htk Hs), Hnotes by exact Hk.
    now rewrite app_nil_r in Hn.
Qed.

Lemma playScale_uncancelled w fs fresh now :
  log_wf w -> playing w = false ->
  uncancelled (length (tasks w)) fs (playScale fs fresh now w).
Proof.
  intros Hw Hp. specialize (Hw (length (tasks w)) (Nat.le_refl _)).
  unfold playScale. rewrite Hp.
  set (w1 := ensureAudioContext fresh _).
  destruct (ensureAudioContext_spec fresh
              (set_playing Freq true (set_stopFlag Freq false w)))
    as (Ht & Hs & _ & Hnotes).
  fold w1 in Ht, Hs, Hnotes. simpl in Ht, Hs, Hnotes.
  assert (Hspawn : uncancelled (length (tasks w)) fs
                     (playScale_loop (length (tasks w)) now fs
                        (spawn Freq Running w1))).
  { apply loop_uncancelled; simpl.
    - rewrite Ht, length_app. simpl. lia.
    - exact Hs.
    - now rewrite Hnotes, Hw. }
  destruct (audioCtx w1) as [[]|]; try exact Hspawn.
  split; [exact Hs|]. simpl.
  rewrite Ht, lookup_app_r, Nat.sub_diag by lia. simpl.
  rewrite notes_of_app, Hnotes, Hw. auto.
Qed.

Lemma uncancelled_lt k fs w : uncancelled k fs w -> (k < length (tasks w))%nat.
Proof.
  intros [_ H]. destruct (tasks w !! k) eqn:Hk; [|contradiction].
  now apply lookup_lt_Some in Hk.
Qed.

Lemma step_uncancelled w e k fs :
  e <> Stop -> uncancelled k fs w -> uncancelled k fs (step w e).
Proof.
  intros He Hu. pose proof (uncancelled_lt _ _ _ Hu) as Hk.
  pose proof Hu as [Hs Hm].
  destruct (classic_targets e k) as [Ht|Ht].
  - destruct e as [| |k' ok now|k' now]; simpl in Ht; try contradiction;
      subst k'; simpl.
    + unfold settle.
      destruct (tasks w !! k) as [[]|] eqn:Hlk; try exact Hu;
        try contradiction.
      destruct Hm as [-> Hn]. destruct ok.
      * apply loop_uncancelled; simpl; auto. now rewrite Hn.
      * split; [exact Hs|]. simpl.
        rewrite list_lookup_insert_eq by exact Hk.
        rewrite notes_of_app, Hn. reflexivity.
    + unfold timeout.
      destruct (tasks w !! k) as [[]|] eqn:Hlk; try exact Hu.
      apply loop_uncancelled; simpl; auto.
      rewrite notes_of_app. simpl. now rewrite app_nil_r.
  - split; [now apply step_stopFlag_false|].
    destruct (step_frame w e k Hk Ht) as [-> ->]. exact Hm.
Qed.

Lemma run_uncancelled w es k fs :
  Forall (fun e => e <> Stop) es ->
  uncancelled k fs w -> uncancelled k fs (run w es).
Proof.
  intros Hes. revert w.
  induction Hes as [|e es He _ IH]; intros w Hu; [exact Hu|].
  apply IH, step_uncancelled; assumption.
Qed.

(** Once the timers of the call have all fired it has finished, with every
    note of its list started. *)
Lemma timeouts_complete k l : forall w (nows : list Q),
  stopFlag w = false ->
  tasks w !! k = Some (PlayAwaitTimeout l) ->
  length nows = S (length l) ->
  let w' := run w (map (Timeout k) nows) in
  tasks w' !! k = Some Fulfilled
  /\ notes_of k (log w') = notes_of k (log w) ++ l
  /\ stopFlag w' = false /\ playing w' = false.
Proof.
  induction l as [|f l IH]; intros w nows Hs Hlk Hlen;
    destruct nows as [|now nows]; try discriminate;
    pose proof (lookup_lt_Some _ _ _ Hlk) as Hk.
  - destruct nows; [|discriminate]. simpl.
    unfold timeout. rewrite Hlk. unfold playScale_loop.
    destruct (playScale_exit_spec k (emit Freq (Disconnect k) w))
      as (tk & Ht & _ & Htk & Hs' & Hp & _ & Hnotes).
    simpl in *. rewrite Ht, list_lookup_insert_eq, (Htk Hs), Hnotes by exact Hk.
    rewrite notes_of_app. simpl. rewrite !app_nil_r.
    repeat split; congruence.
  - rewrite map_cons, run_cons. simpl step. unfold timeout. rewrite Hlk.
    set (w1 := playScale_loop k now (f :: l) _).
    assert (H1 : stopFlag w1 = false
                 /\ tasks w1 !! k = Some (PlayAwaitTimeout l)
                 /\ notes_of k (log w1) = notes_of k (log w) ++ [f]).
    { subst w1. unfold playScale_loop. simpl. rewrite Hs. simpl.
      rewrite list_lookup_insert_eq by exact Hk.
      rewrite !notes_of_app. simpl. rewrite Nat.eqb_refl.
      rewrite !app_nil_r. auto. }
    destruct H1 as (Hs1 & Hlk1 & Hn1).
    destruct (IH w1 nows Hs1 Hlk1) as (Ha & Hb & Hc & Hd);
      [simpl in Hlen; lia|].
    rewrite Ha, Hb, Hn1, <- app_assoc. auto.
Qed.

Lemma stop_spec w :
  stopFlag (stop w) = true /\ playing (stop w) = false
  /\ length (tasks (stop w)) = S (length (tasks w))
  /\ forall j, notes_of j (log (stop w)) = notes_of j (log w).
Proof.
  unfold stop. simpl. destruct (audioCtx w) as [[]|]; simpl;
    rewrite length_app; simpl; repeat split; auto; try lia;
    intros j; rewrite ?notes_of_app; simpl; now rewrite ?app_nil_r.
Qed.

(** Where an effective [playScale] leaves its call. *)
Lemma playScale_started w fs fresh now :
  log_wf w -> playing w = false ->
  let k := length (tasks w) in
  let w1 := playScale fs fresh now w in
  stopFlag w1 = false
  /\ (tasks w1 !! k = Some (PlayAwaitResume fs) /\ notes_of k (log w1) = []
      \/ (exists f l, fs = f :: l
            /\ tasks w1 !! k = Some (PlayAwaitTimeout l)
            /\ notes_of k (log w1) = [f])
      \/ (fs = [] /\ tasks w1 !! k = Some Fulfilled
          /\ notes_of k (log w1) = [])).
Proof.
  intros Hw Hp k w1.
  pose proof (playScale_uncancelled w fs fresh now Hw Hp) as [Hs Hm].
  fold k w1 in Hs, Hm. split; [exact Hs|].
  specialize (Hw k (Nat.le_refl _)).
  subst w1. unfold playScale in *. rewrite Hp in *.
  set (w1 := ensureAudioContext fresh _) in *.
  destruct (ensureAudioContext_spec fresh
              (set_playing Freq true (set_stopFlag Freq false w)))
    as (Ht & Hs1 & _ & Hnotes).
  fold w1 in Ht, Hs1, Hnotes. simpl in Ht, Hs1, Hnotes.
  assert (Hk : (k < length (tasks (spawn Freq Running w1)))%nat)
    by (simpl; rewrite Ht, length_app; simpl; subst k; lia).
  assert (Hloop :
    let w2 := playScale_loop k now fs (spawn Freq Running w1) in
    (exists f l, fs = f :: l
       /\ tasks w2 !! k = Some (PlayAwaitTimeout l)
       /\ notes_of k (log w2) = [f])
    \/ (fs = [] /\ tasks w2 !! k = Some Fulfilled
        /\ notes_of k (log w2) = [])).
  { intros w2. subst w2.
    destruct (playScale_loop_spec k now fs (spawn Freq Running w1))
      as [(f & rest & -> & _ & Ht2 & _ & _ & _ & Hn2)|[[->|Hx] ->]].
    - left. exists f, rest. split; [reflexivity|].
      rewrite Ht2, list_lookup_insert_eq, Hn2, Nat.eqb_refl by exact Hk.
      simpl. now rewrite Hnotes, Hw.
    - right. split; [reflexivity|].
      destruct (playScale_exit_spec k (spawn Freq Running w1))
        as (tk & Ht2 & _ & Htk & _ & _ & _ & Hn2).
      rewrite Ht2, list_lookup_insert_eq, Hn2 by exact Hk.
      simpl. rewrite Hnotes, Hw, (Htk Hs1). auto.
    - simpl in Hx. congruence. }
  destruct (audioCtx w1) as [[]|]; try (right; exact Hloop).
  left. simpl. rewrite Ht, lookup_app_r, Nat.sub_diag by (subst k; lia).
  rewrite notes_of_app, Hnotes, Hw. auto.
Qed.

(** C10: whatever happened before, a [stop()] followed by a [play()] leaves
    the cancellation flag false; as long as no further stop is requested
    the flag stays false and the new call loses no note (it waits with the
    rest of its list, or has finished with the whole list started, or its
    [resume] was refused); and once its [resume] has settled and its timers
    have fired, the call has finished with exactly its list started. *)
Theorem stale_stop_is_discarded (es0 : list (Event Freq)) fs fresh now
    (es : list (Event Freq)) (now' : Q) (nows : list Q) :
  Forall (fun e => e <> Stop) es ->
  length nows = length fs ->
  let w0 := stop (run (initial Freq) es0) in
  let k := length (tasks w0) in
  let w1 := playScale fs fresh now w0 in
  stopFlag w0 = true
  /\ stopFlag w1 = false
  /\ uncancelled k fs (run w1 es)
  /\ let w2 := run w1 (Settle k true now' :: map (Timeout k) nows) in
     tasks w2 !! k = Some Fulfilled /\ notes_of k (log w2) = fs.
Proof.
  intros Hes Hlen w0 k w1.
  assert (Hwf : log_wf w0).
  { change w0 with (step (run (initial Freq) es0) Stop).
    apply step_log_wf, run_log_wf, initial_log_wf. }
  destruct (stop_spec (run (initial Freq) es0)) as (Hs0 & Hp0 & _).
  fold w0 in Hs0, Hp0.
  destruct (playScale_started w0 fs fresh now Hwf Hp0) as [Hs1 Hcases].
  fold k w1 in Hs1, Hcases.
  split; [exact Hs0|]. split; [exact Hs1|]. split.
  - apply run_uncancelled; [exact Hes|].
    now apply playScale_uncancelled.
  - intros w2. subst w2. rewrite run_cons. simpl step. unfold settle.
    destruct Hcases as [[Hlk Hn]|[(f & l & -> & Hlk & Hn)|(-> & Hlk & Hn)]];
      rewrite Hlk.
    + pose proof (lookup_lt_Some _ _ _ Hlk) as Hk.
      destruct fs as [|f l].
      * destruct nows; [|discriminate]. simpl.
        destruct (playScale_exit_spec k
                    (set_audioCtx Freq (Some running) w1))
          as (tk & Ht & _ & Htk & _ & _ & _ & Hn2).
        simpl in *.
        rewrite Ht, list_lookup_insert_eq, Hn2, (Htk Hs1) by exact Hk.
        auto.
      * set (w2 := playScale_loop k now' (f :: l) _).
        assert (H2 : stopFlag w2 = false
                     /\ tasks w2 !! k = Some (PlayAwaitTimeout l)
                     /\ notes_of k (log w2) = [f]).
        { subst w2. unfold playScale_loop. simpl. rewrite Hs1. simpl.
          rewrite list_lookup_insert_eq by exact Hk.
          rewrite !notes_of_app, Hn. simpl. rewrite Nat.eqb_refl. auto. }
        destruct H2 as (Hs2 & Hlk2 & Hn2).
        destruct (timeouts_complete k l w2 nows Hs2 Hlk2 Hlen)
          as (Ha & Hb & _).
        rewrite Ha, Hb, Hn2. auto.
    + destruct (timeouts_complete k l w1 nows Hs1 Hlk Hlen) as (Ha & Hb & _).
      rewrite Ha, Hb, Hn. auto.
    + destruct nows; [|discriminate]. simpl. auto.
Qed.

(** *** A sequence that is left alone runs to its end *)

Lemma play_completes w fs fresh now now' (nows : list Q) :
  log_wf w -> playing w = false -> length nows = length fs ->
  let k := length (tasks w) in
  let w2 := run (playScale fs fresh now w)
              (Settle k true now' :: map (Timeout k) nows) in
  tasks w2 !! k = Some Fulfilled
  /\ notes_of k (log w2) = fs
  /\ playing w2 = false /\ stopFlag w2 = false.
Proof.
  intros Hwf Hp Hlen k w2.
  destruct (playScale_started w fs fresh now Hwf Hp) as [Hs1 Hcases].
  fold k in Hs1, Hcases. set (w1 := playScale fs fresh now w) in *.
  subst w2. rewrite run_cons. simpl step. unfold settle.
  destruct Hcases as [[Hlk Hn]|[(f & l & -> & Hlk & Hn)|(-> & Hlk & Hn)]];
    rewrite Hlk.
  - pose proof (lookup_lt_Some _ _ _ Hlk) as Hk.
    destruct fs as [|f l].
    + destruct nows; [|discriminate]. simpl.
      destruct (playScale_exit_spec k (set_audioCtx Freq (Some running) w1))
        as (tk & Ht & _ & Htk & Hs2 & Hp2 & _ & Hn2).
      simpl in *.
      rewrite Ht, list_lookup_insert_eq, Hn2, (Htk Hs1) by exact Hk.
      repeat split; auto; congruence.
    + set (w2 := playScale_loop k now' (f :: l) _).
      assert (H2 : stopFlag w2 = false
                   /\ tasks w2 !! k = Some (PlayAwaitTimeout l)
                   /\ notes_of k (log w2) = [f]).
      { subst w2. unfold playScale_loop. simpl. rewrite Hs1. simpl.
        rewrite list_lookup_insert_eq by exact Hk.
        rewrite !notes_of_app, Hn. simpl. rewrite Nat.eqb_refl. auto. }
      destruct H2 as (Hs2 & Hlk2 & Hn2).
      destruct (timeouts_complete k l w2 nows Hs2 Hlk2 Hlen)
        as (Ha & Hb & Hc & Hd).
      rewrite Ha, Hb, Hn2. auto.
  - destruct (timeouts_complete k l w1 nows Hs1 Hlk Hlen)
      as (Ha & Hb & Hc & Hd).
    rewrite Ha, Hb, Hn. auto.
  - destruct nows; [|discriminate]. simpl.
    repeat split; auto.
    subst w1. unfold playScale in *. rewrite Hp in *.
    set (w0 := ensureAudioContext fresh _) in *.
    destruct (audioCtx w0) as [[]|];
      try (simpl in Hlk;
           destruct (ensureAudioContext_spec fresh
                       (set_playing Freq true (set_stopFlag Freq false w)))
             as (Ht0 & _);
           fold w0 in Ht0; simpl in Ht0;
           rewrite Ht0, lookup_app_r, Nat.sub_diag in Hlk by (subst k; lia);
           discriminate);
      unfold playScale_loop;
      destruct (playScale_exit_spec k (spawn Freq Running w0))
        as (_ & _ & _ & _ & _ & Hp2 & _); exact Hp2.
Qed.

(** *** The guards of [playScale] and [stop] *)

(** While [playingRef] is set, [playScale] returns at once: the flags, the
    session and the log are as before. *)
Lemma playScale_ignored_while_playing w fs fresh now :
  playing w = true -> playScale fs fresh now w = spawn Freq Fulfilled w.
Proof. intros H. unfold playScale. now rewrite H. Qed.

(** X23: a refused [suspend] is caught: the call is fulfilled all the
    same, and but for the session, which stays as it was, the world is the
    one a fulfilled [suspend] leaves. *)
Lemma suspend_rejection_swallowed w k now :
  tasks w !! k = Some StopAwaitSuspend \/ tasks w !! k = Some PlayAwaitSuspend ->
  let w' := settle k false now w in
  tasks w' !! k = Some Fulfilled
  /\ tasks w' = tasks (settle k true now w)
  /\ log w' = log w /\ stopFlag w' = stopFlag w /\ playing w' = playing w
  /\ audioCtx w' = audioCtx w.
Proof.
  intros H. assert (Hk : (k < length (tasks w))%nat)
    by (destruct H as [H|H]; now apply lookup_lt_Some in H).
  unfold settle. destruct H as [-> | ->]; simpl;
    rewrite list_lookup_insert_eq by exact Hk; repeat split; reflexivity.
Qed.

(** While a stop request stands and Play is not clicked again, no call
    starts a note. *)
Lemma step_stopped w e :
  ~ is_play e -> stopFlag w = true ->
  stopFlag (step w e) = true
  /\ forall j, notes_of j (log (step w e)) = notes_of j (log w).
Proof.
  intros He Hs.
  destruct e; simpl in He; try tauto; unfold_step; simpl;
    repeat (case_match; simpl); try congruence; split; auto; intros j;
    rewrite ?notes_of_app; simpl; now rewrite ?app_nil_r.
Qed.

Lemma run_stopped w es :
  Forall (fun e => ~ is_play e) es -> stopFlag w = true ->
  stopFlag (run w es) = true
  /\ forall j, notes_of j (log (run w es)) = notes_of j (log w).
Proof.
  intros Hes. revert w.
  induction Hes as [|e es He _ IH]; intros w Hs; [auto|].
  destruct (step_stopped w e He Hs) as [Hs1 Hn1].
  destruct (IH (step w e) Hs1) as [Hs2 Hn2].
  rewrite run_cons. split; [exact Hs2|].
  intros j. now rewrite Hn2, Hn1.
Qed.

(** X22: after [stop()], if Play is not clicked again: whatever else
    happens, no call starts a note; when the timer of a waiting call fires,
    the call leaves its loop, and it has the session suspended if it still
    runs. *)
Lemma stop_cancels_the_loop w k rest es now now' :
  tasks w !! k = Some (PlayAwaitTimeout rest) ->
  Forall (fun e => ~ is_play e /\ ~ targets e k) es ->
  let w1 := run (stop w) es in
  let w2 := timeout k now w1 in
  (forall j, notes_of j (log w2) = notes_of j (log w))
  /\ playing w2 = false
  /\ (tasks w2 !! k = Some Fulfilled /\ audioCtx w2 <> Some running
      \/ tasks w2 !! k = Some PlayAwaitSuspend
         /\ tasks (settle k true now' w2) !! k = Some Fulfilled
         /\ audioCtx (settle k true now' w2) = Some suspended).
Proof.
  intros Hlk Hes w1 w2.
  destruct (stop_spec w) as (Hs0 & _ & Hl0 & Hn0).
  assert (Hes1 : Forall (fun e => ~ is_play e) es)
    by (eapply Forall_impl; [exact Hes|]; simpl; tauto).
  destruct (run_stopped (stop w) es Hes1 Hs0) as [Hs1 Hn1].
  fold w1 in Hs1, Hn1.
  assert (Hlk1 : tasks w1 !! k = Some (PlayAwaitTimeout rest)).
  { subst w1. clear Hs1 Hn1 Hes1.
    assert (Hlk0 : tasks (stop w) !! k = Some (PlayAwaitTimeout rest)).
    { change (stop w) with (step w Stop).
      pose proof (lookup_lt_Some _ _ _ Hlk) as Hk.
      destruct (step_frame w Stop k Hk) as [-> _]; [simpl; tauto|exact Hlk]. }
    revert Hlk0. generalize (stop w). clear Hlk Hs0 Hl0 Hn0.
    induction Hes as [|e es [_ He] _ IH]; intros w0 Hlk0; [exact Hlk0|].
    rewrite run_cons. apply IH.
    pose proof (lookup_lt_Some _ _ _ Hlk0) as Hk.
    destruct (step_frame w0 e k Hk He) as [-> _]. exact Hlk0. }
  pose proof (lookup_lt_Some _ _ _ Hlk1) as Hk1.
  subst w2. unfold timeout. rewrite Hlk1.
  assert (Hloop : playScale_loop k now rest (emit Freq (Disconnect k) w1)
                  = playScale_exit k (emit Freq (Disconnect k) w1)).
  { unfold playScale_loop. simpl. rewrite Hs1. now destruct rest. }
  rewrite Hloop.
  destruct (playScale_exit_spec k (emit Freq (Disconnect k) w1))
    as (tk & Ht & Htk & _ & Hs2 & Hp2 & Hc2 & Hn2).
  simpl in *.
  split; [|split; [exact Hp2|]].
  - intros j. rewrite Hn2, notes_of_app, Hn1, Hn0. simpl.
    now rewrite app_nil_r.
  - rewrite Ht, list_lookup_insert_eq by exact Hk1.
    destruct Htk as [->|(-> & _ & Hrun)].
    + left. split; [reflexivity|].
      unfold playScale_exit. simpl. rewrite Hs1.
      destruct (audioCtx w1) as [[]|] eqn:Hc; simpl; rewrite ?Hc;
        try discriminate.
      exfalso. revert Ht. unfold playScale_exit. simpl.
      rewrite Hs1, Hc. simpl. intros Ht.
      apply (f_equal (fun l => l !! k)) in Ht.
      rewrite !list_lookup_insert_eq in Ht by exact Hk1. discriminate.
    + right. split; [reflexivity|].
      unfold settle. rewrite Ht, list_lookup_insert_eq by exact Hk1.
      simpl. rewrite list_lookup_insert_eq; [auto|].
      rewrite Ht, length_insert. exact Hk1.
Qed.

End Facts.

Lemma note_envelope_and_pacing_witness :
  exists ms,
    log (run (initial Q) [Play [440; 660]%Q running 0%Q]) !! 2%nat
    = Some (SetTimeout 0 ms)
    /\ (ms == 270)%Q.
Proof.
  destruct (@note_envelope_and_pacing Q [Play [440; 660]%Q running 0%Q] 1 0
              (voice 440%Q 0%Q) eq_refl)
    as (? & ? & ? & ? & ms & ? & ? & ? & ?
        & _ & _ & _ & _ & _ & _ & _ & _ & _ & Hn & Hms & _).
  exists ms. split; [exact Hn|]. rewrite Hms. reflexivity.
Defined.

Lemma stale_stop_is_discarded_witness :
  notes_of 1
    (log (run (playScale [440; 660]%Q running 0%Q (stop (initial Q)))
            (Settle 1 true 0%Q :: map (Timeout 1) [0.27; 0.54]%Q)))
  = [440; 660]%Q.
Proof.
  refine (proj2 (proj2 (proj2 (proj2
    (@stale_stop_is_discarded Q [] [440; 660]%Q running 0%Q
       [Timeout 1 0.27%Q] 0%Q [0.27; 0.54]%Q _ _))))).
  - repeat constructor; discriminate.
  - reflexivity.
Defined.

End PlaybackFacts.

(** * Properties of the page *)

Module HomeFacts.

Import Scale Playback Home PlaybackFacts.

(** The playback state of the page only moves by playback events. *)
Lemma run_playback (es : list Home.Event) : forall s : Home.State,
  exists pes : list (Playback.Event R),
    playback (Home.run s es) = Playback.run (playback s) pes
    /\ (Forall (fun e => e <> ClickStop) es ->
        Forall (fun e => e <> Stop) pes).
Proof.
  induction es as [|e es IH]; intros s.
  - exists []. split; [reflexivity|constructor].
  - destruct (IH (Home.step s e)) as (pes & Hrun & Hstop).
    change (Home.run s (e :: es)) with (Home.run (Home.step s e) es).
    destruct e as [n|v|v|v|fresh now| |k ok now|k now];
      [exists pes|exists pes|exists pes|exists pes
      |exists (Play (currentFreqs (tuning s)) fresh now :: pes)
      |exists (Stop :: pes)
      |exists (Settle k ok now :: pes)
      |exists (Timeout k now :: pes)];
      (split; [exact Hrun|]);
      intros H; inversion H; subst; try constructor; auto; congruence.
Qed.

Lemma reachable_log_wf (es : list Home.Event) :
  log_wf (playback (Home.run initialState es)).
Proof.
  destruct (run_playback es initialState) as (pes & -> & _).
  apply PlaybackFacts.run_log_wf, initial_log_wf.
Qed.

(** Without a click on Play, the playback state moves by the playback
    events of the run, whatever the tuning does in between. *)
Lemma run_without_play (es : list Home.Event) : forall s : Home.State,
  Forall (fun e => ~ is_ClickPlay e) es ->
  playback (Home.run s es)
  = Playback.run (playback s) (omap playbackEvent es).
Proof.
  induction es as [|e es IH]; intros s Hes; [reflexivity|].
  inversion Hes as [|? ? He Hes']; subst.
  change (Home.run s (e :: es)) with (Home.run (Home.step s e) es).
  rewrite IH by exact Hes'.
  destruct e; simpl in He; try contradiction; reflexivity.
Qed.

(** C9: from any state the page can reach, a click on Play makes a call
    whose notes are drawn, in order, from the frequency list of the tuning
    at the click, whatever happens afterwards, changes of the base
    frequency, the division count and the note count included: what the
    call has started and what it has still to visit are together that
    list.  If the click was not ignored and no stop is requested
    afterwards, the call loses no note.  And it does emit the list: if the
    click was not ignored and what follows is the settling of its [resume]
    and one timer firing per note, with any changes of the tuning in
    between, the call finishes having started exactly the list of the
    tuning at the click. *)
Theorem inflight_sequence_keeps_its_frequencies
    (es0 es : list Home.Event) (fresh : AudioContextState) (now : Q) :
  let s := Home.run initialState es0 in
  let k := length (tasks (playback s)) in
  let captured := currentFreqs (tuning s) in
  let s' := Home.run (Home.step s (ClickPlay fresh now)) es in
  draws_from k captured (playback s')
  /\ (playing (playback s) = false ->
      Forall (fun e => e <> ClickStop) es ->
      uncancelled k captured (playback s'))
  /\ (playing (playback s) = false ->
      forall (now' : Q) (nows : list Q),
        Forall (fun e => ~ is_ClickPlay e) es ->
        omap playbackEvent es = Settle k true now' :: map (Timeout k) nows ->
        length nows = length captured ->
        tasks (playback s') !! k = Some Fulfilled
        /\ notes_of k (log (playback s')) = captured
        /\ playing (playback s') = false).
Proof.
  intros s k captured s'.
  pose proof (reachable_log_wf es0) as Hwf. fold s in Hwf.
  split; [|split].
  - destruct (run_playback es (Home.step s (ClickPlay fresh now)))
      as (pes & Hrun & Hstop).
    fold s' in Hrun. rewrite Hrun. simpl.
    apply run_draws_from, playScale_draws_from, Hwf.
  - intros Hp Hes.
    destruct (run_playback es (Home.step s (ClickPlay fresh now)))
      as (pes & Hrun & Hstop).
    fold s' in Hrun. rewrite Hrun. simpl.
    apply run_uncancelled; [auto|].
    apply playScale_uncancelled; assumption.
  - intros Hp now' nows Hes Hproj Hlen.
    subst s'. rewrite run_without_play by exact Hes.
    rewrite Hproj. simpl playback.
    destruct (play_completes (playback s) captured fresh now now' nows
                Hwf Hp Hlen) as (Ha & Hb & Hc & _).
    fold k in Ha, Hb, Hc. auto.
Qed.

(** *** The tuning inputs *)

Lemma setEdo_inv (v : Z) (t : Tuning) :
  (5 <= v <= 53)%Z -> tuning_inv t -> tuning_inv (setEdo v t).
Proof.
  intros Hv [He Hn]. unfold setEdo.
  destruct (Z.eqb_spec v (edo t)); [split; assumption|].
  split; simpl; [exact Hv|].
  apply ScaleFacts.clampInt_range. lia.
Qed.

(** The division count and the note count are rounded and clamped by their
    handlers, and every preset is in range: on every state the page can
    reach, [edo] is in [5, 53] and [noteCount] in [1, edo]. *)
Lemma onChange_edo_clamps (v : Q) (t : Tuning) :
  tuning_inv t ->
  tuning_inv (onChange_edo v t)
  /\ edo (onChange_edo v t) = clampInt v 5 53.
Proof.
  intros Ht. unfold onChange_edo.
  assert (Hv : (5 <= clampInt v 5 53 <= 53)%Z)
    by (apply ScaleFacts.clampInt_range; lia).
  split; [now apply setEdo_inv|].
  unfold setEdo. destruct (Z.eqb_spec (clampInt v 5 53) (edo t)); auto.
Qed.

Lemma onChange_noteCount_clamps (v : Q) (t : Tuning) :
  tuning_inv t ->
  tuning_inv (onChange_noteCount v t)
  /\ noteCount (onChange_noteCount v t) = clampInt v 1 (edo t).
Proof.
  intros [He Hn]. split; [|reflexivity].
  split; simpl; [exact He|]. apply ScaleFacts.clampInt_range. lia.
Qed.

Lemma onChange_preset_inv (n : string) (t : Tuning) :
  tuning_inv t -> tuning_inv (onChange_preset n t).
Proof.
  intros Ht. unfold onChange_preset.
  assert (Ht' : tuning_inv {| baseHz := baseHz t; edo := edo t;
                              noteCount := noteCount t; presetName := n |})
    by exact Ht.
  destruct (find _ PRESETS) as [p|] eqn:Hf; [|exact Ht'].
  apply setEdo_inv; [|exact Ht'].
  apply find_some in Hf as [Hin _].
  simpl in Hin.
  destruct Hin as [<-|[<-|[<-|[<-|[]]]]]; simpl; lia.
Qed.

Lemma step_tuning_inv (s : Home.State) (e : Home.Event) :
  tuning_inv (tuning s) -> tuning_inv (tuning (Home.step s e)).
Proof.
  intros Ht. destruct e; simpl; auto.
  - now apply onChange_preset_inv.
  - now apply onChange_edo_clamps.
  - now apply onChange_noteCount_clamps.
Qed.

Lemma run_tuning_inv (es : list Home.Event) :
  tuning_inv (tuning (Home.run initialState es)).
Proof.
  assert (H : forall s, tuning_inv (tuning s) ->
                        tuning_inv (tuning (Home.run s es))).
  { induction es as [|e es IH]; intros s Hs; [exact Hs|].
    apply IH, step_tuning_inv, Hs. }
  apply H. split; simpl; lia.
Qed.

(** C3, the failing input: the handler of the base frequency stores the
    number as it was typed.  After 10 is typed, the base frequency is 10,
    below the minimum of 50 the input declares, and the scale starts at
    10 Hz. *)
Theorem baseHz_is_not_clamped :
  let t := onChange_baseHz 10 initialTuning in
  baseHz t = 10%Q
  /\ ~ (50 <= baseHz t <= 2000)%Q
  /\ currentFreqs t !! 0%nat = Some (Q2R 10).
Proof.
  intros t. split; [reflexivity|]. split.
  - intros [H _]. revert H. apply Qlt_not_le. reflexivity.
  - unfold currentFreqs.
    rewrite ScaleFacts.freqs_lookup by (vm_compute; reflexivity).
    change (Z.of_nat 0) with 0%Z. now rewrite ScaleFacts.freqForStep_0.
Qed.

(** *** Play, Stop and Play again within one note *)

(** C1, the failing input: Stop is clicked while call 0 waits between its
    first and second note, then Play is clicked before the timer of call 0
    fires.  The stop request was standing, but the second Play took it
    back: when the timer fires, call 0 checks the flag, finds it false and
    starts its second note; it goes on looping, and the session is
    running. *)
Theorem stop_then_play_revives_the_loop :
  let fs := currentFreqs initialTuning in
  let stopped := Home.run initialState [ClickPlay running 0%Q; ClickStop] in
  let s := Home.run initialState (stop_then_play ++ [TimerFired 0 0.27%Q]) in
  tasks (playback stopped) !! 0%nat = Some (PlayAwaitTimeout (drop 1 fs))
  /\ stopFlag (playback stopped) = true
  /\ notes_of 0 (log (playback stopped)) = take 1 fs
  /\ stopFlag (playback (Home.run initialState stop_then_play)) = false
  /\ notes_of 0 (log (playback s)) = take 2 fs
  /\ tasks (playback s) !! 0%nat = Some (PlayAwaitTimeout (drop 2 fs))
  /\ audioCtx (playback s) = Some running.
Proof. vm_compute. repeat split; reflexivity. Qed.

(** C2, the failing input: the same clicks.  The second Play is not
    ignored although call 0 has not left its loop, because Stop had already
    cleared [playingRef]; from then on calls 0 and 2 both loop, and their
    notes alternate. *)
Theorem two_sequences_at_once :
  let fs := currentFreqs initialTuning in
  let stopped :=
    Home.run initialState [ClickPlay running 0; ClickStop; Settled 1 true 0.1]%Q in
  let s := Home.run initialState
             (stop_then_play
              ++ [TimerFired 0 0.27; TimerFired 2 0.37; TimerFired 0 0.54])%Q in
  tasks (playback stopped) !! 0%nat = Some (PlayAwaitTimeout (drop 1 fs))
  /\ playing (playback stopped) = false
  /\ tasks (playback s)
     = [PlayAwaitTimeout (drop 3 fs); Fulfilled; PlayAwaitTimeout (drop 2 fs)]
  /\ note_calls (log (playback s)) = [0; 2; 0; 2; 0]%nat
  /\ notes_of 0 (log (playback s)) = take 3 fs
  /\ notes_of 2 (log (playback s)) = take 2 fs.
Proof. vm_compute. repeat split; reflexivity. Qed.

(** C7, the failing input: Play, Stop, the [suspend] fulfilled, the loop
    left; then Play again, whose [resume] the backend refuses.  The
    rejection leaves [playScale] uncaught: the call is rejected, no note is
    started, and [playingRef] stays set, so the next Play is ignored. *)
Theorem resume_failure_escapes_playScale :
  let s := Home.run initialState
             [ ClickPlay running 0; ClickStop; Settled 1 true 0.1;
               TimerFired 0 0.1; ClickPlay running 0.1;
               Settled 2 false 0.1 ]%Q in
  let s' := Home.step s (ClickPlay running 0.1%Q) in
  tasks (playback s) !! 2%nat = Some Rejected
  /\ last (log (playback s)) = Some (Uncaught 2)
  /\ notes_of 2 (log (playback s)) = []
  /\ playing (playback s) = true
  /\ tasks (playback s') !! 3%nat = Some Fulfilled
  /\ log (playback s') = log (playback s).
Proof. vm_compute. repeat split; reflexivity. Qed.

Lemma inflight_sequence_keeps_its_frequencies_witness :
  notes_of 0
    (log (playback
            (Home.run initialState
               [ClickPlay running 0%Q; ChangeEdo 19%Q; Settled 0 true 0%Q;
                TimerFired 0 0.27%Q; ChangeBaseHz 100%Q;
                TimerFired 0 0.54%Q; ChangeNoteCount 3%Q;
                TimerFired 0 0.81%Q; TimerFired 0 1.08%Q;
                TimerFired 0 1.35%Q; ChangePreset "31-EDO";
                TimerFired 0 1.62%Q; TimerFired 0 1.89%Q;
                TimerFired 0 2.16%Q; TimerFired 0 2.43%Q;
                TimerFired 0 2.70%Q; TimerFired 0 2.97%Q;
                TimerFired 0 3.24%Q])))
  = currentFreqs initialTuning.
Proof.
  apply (proj2 (proj2 (inflight_sequence_keeps_its_frequencies []
           [ChangeEdo 19%Q; Settled 0 true 0%Q;
            TimerFired 0 0.27%Q; ChangeBaseHz 100%Q;
            TimerFired 0 0.54%Q; ChangeNoteCount 3%Q;
            TimerFired 0 0.81%Q; TimerFired 0 1.08%Q;
            TimerFired 0 1.35%Q; ChangePreset "31-EDO";
            TimerFired 0 1.62%Q; TimerFired 0 1.89%Q;
            TimerFired 0 2.16%Q; TimerFired 0 2.43%Q;
            TimerFired 0 2.70%Q; TimerFired 0 2.97%Q;
            TimerFired 0 3.24%Q]
           running 0%Q)) eq_refl 0%Q
           [0.27; 0.54; 0.81; 1.08; 1.35; 1.62; 1.89; 2.16; 2.43; 2.70;
            2.97; 3.24]%Q).
  - repeat constructor; simpl; tauto.
  - reflexivity.
  - reflexivity.
Defined.

End HomeFacts.

(** * Further properties of the scale model *)

Module ScaleExtras.

Import Scale ScaleFacts.

#[local] Open Scope Z_scope.

Lemma inject_Z_le_pred (a b : Z) :
  a < b -> (inject_Z a + 1 <= inject_Z b)%Q.
Proof.
  intros H. change 1%Q with (inject_Z 1). rewrite <- inject_Z_plus.
  rewrite <- Zle_Qle. lia.
Qed.

(** X1: with [min <= max], [clampInt] returns an integer of [min, max]
    that is as near to [n] as any integer of [min, max]. *)
Theorem clampInt_is_nearest_in_range (n : Q) (min max : Z) :
  min <= max ->
  min <= clampInt n min max <= max
  /\ forall m : Z, min <= m <= max ->
       (Qabs.Qabs (inject_Z (clampInt n min max) - n)
        <= Qabs.Qabs (inject_Z m - n))%Q.
Proof.
  intros Hmm. split; [now apply clampInt_range|].
  intros m Hm.
  destruct (Math_round_nearest n) as [Hlo Hhi].
  set (r := Math_round n) in *.
  assert (Hcases : r < min /\ clampInt n min max = min
                   \/ max < r /\ clampInt n min max = max
                   \/ (min <= r <= max) /\ clampInt n min max = r).
  { unfold clampInt. fold r. lia. }
  destruct Hcases as [[Hr ->]|[[Hr ->]|[Hr ->]]].
  - pose proof (inject_Z_le_pred _ _ Hr) as H1.
    assert (H2 : (inject_Z min <= inject_Z m)%Q) by (rewrite <- Zle_Qle; lia).
    apply Qabs.Qabs_case; intros H3; apply Qabs.Qabs_case; intros H4;
      Lqa.lra.
  - pose proof (inject_Z_le_pred _ _ Hr) as H1.
    assert (H2 : (inject_Z m <= inject_Z max)%Q) by (rewrite <- Zle_Qle; lia).
    apply Qabs.Qabs_case; intros H3; apply Qabs.Qabs_case; intros H4;
      Lqa.lra.
  - destruct (Z.lt_trichotomy m r) as [Hlt|[->|Hgt]].
    + pose proof (inject_Z_le_pred _ _ Hlt) as H1.
      apply Qabs.Qabs_case; intros H3; apply Qabs.Qabs_case; intros H4;
        Lqa.lra.
    + apply Qle_refl.
    + pose proof (inject_Z_le_pred _ _ Hgt) as H1.
      apply Qabs.Qabs_case; intros H3; apply Qabs.Qabs_case; intros H4;
        Lqa.lra.
Qed.

Lemma Math_round_le (n1 n2 : Q) :
  (n1 <= n2)%Q -> Math_round n1 <= Math_round n2.
Proof.
  intros H. unfold Math_round.
  assert (H1 : (n1 + (1 # 2) <= n2 + (1 # 2))%Q) by Lqa.lra.
  now apply Qfloor_resp_le.
Qed.

(** X2: [clampInt] is monotone in the number it clamps. *)
Theorem clampInt_monotone (n1 n2 : Q) (min max : Z) :
  (n1 <= n2)%Q -> clampInt n1 min max <= clampInt n2 min max.
Proof.
  intros H. apply Math_round_le in H. unfold clampInt. lia.
Qed.

(** X3: clamping a clamped value again changes nothing, whatever the
    bounds. *)
Theorem clampInt_idempotent (n : Q) (min max : Z) :
  clampInt (inject_Z (clampInt n min max)) min max = clampInt n min max.
Proof. rewrite clampInt_inject_Z. unfold clamp, clampInt. lia. Qed.

Lemma Rpower_2_1 : Rpower 2 1 = 2%R.
Proof. apply Rpower_1. lra. Qed.

Lemma IZR_div_plus_self (step edo : Z) :
  edo <> 0 -> (IZR (step + edo) / IZR edo = IZR step / IZR edo + 1)%R.
Proof.
  intros He. rewrite plus_IZR. field. now apply not_0_IZR.
Qed.

Lemma octave_up_aux (baseHz : R) (step edo : Z) :
  edo <> 0 ->
  freqForStep baseHz (step + edo) edo = (2 * freqForStep baseHz step edo)%R.
Proof.
  intros He. unfold freqForStep.
  rewrite IZR_div_plus_self, Rpower_plus, Rpower_2_1 by exact He. ring.
Qed.

(** X4: one octave up.  With a division count other than 0, [edo] steps
    higher the frequency is doubled and the cents value is 1200 more. *)
Theorem octave_up (baseHz : R) (step edo : Z) :
  edo <> 0 ->
  freqForStep baseHz (step + edo) edo = (2 * freqForStep baseHz step edo)%R
  /\ (cents (step + edo) edo == cents step edo + 1200)%Q.
Proof.
  intros He. split.
  - now apply octave_up_aux.
  - unfold cents. rewrite inject_Z_plus. field.
    intros H. apply He. apply inject_Z_injective. exact H.
Qed.

(** X5: steps compose.  With a division count other than 0, the frequency
    [step2] steps above the frequency [step1] steps above the base is the
    frequency [step1 + step2] steps above the base; going [step] steps up
    and [step] steps down gives the base back. *)
Theorem steps_compose (baseHz : R) (step1 step2 edo : Z) :
  edo <> 0 ->
  freqForStep (freqForStep baseHz step1 edo) step2 edo
  = freqForStep baseHz (step1 + step2) edo
  /\ freqForStep (freqForStep baseHz step1 edo) (- step1) edo = baseHz.
Proof.
  intros He.
  assert (Hadd : forall a b,
            freqForStep (freqForStep baseHz a edo) b edo
            = freqForStep baseHz (a + b) edo).
  { intros a b. unfold freqForStep.
    rewrite Rmult_assoc, <- Rpower_plus. f_equal. f_equal.
    rewrite plus_IZR. field. now apply not_0_IZR. }
  split; [apply Hadd|].
  rewrite Hadd, Z.add_opp_diag_r. apply freqForStep_0.
Qed.

Lemma freqForStep_bounds (baseHz : R) (edo step : Z) :
  (0 < baseHz)%R -> 0 <= step < edo ->
  (baseHz <= freqForStep baseHz step edo < 2 * baseHz)%R.
Proof.
  intros Hb [H0 H1].
  assert (He : 0 < edo) by lia.
  split.
  - destruct (Z.eq_dec step 0) as [->|Hne].
    + rewrite freqForStep_0. lra.
    + rewrite <- (freqForStep_0 baseHz edo) at 1.
      apply Rlt_le, freqForStep_lt; [assumption|assumption|lia].
  - replace (2 * baseHz)%R with (freqForStep baseHz edo edo).
    + apply freqForStep_lt; assumption.
    + pose proof (octave_up_aux baseHz 0 edo ltac:(lia)) as H.
      rewrite Z.add_0_l in H. rewrite H, freqForStep_0. reflexivity.
Qed.

Lemma freqs_lookup_inv (baseHz : R) (edo : Z) (noteCount : Q) (i : nat)
    (f : R) :
  freqs baseHz edo noteCount !! i = Some f ->
  Z.of_nat i < clampInt noteCount 1 edo
  /\ f = freqForStep baseHz (Z.of_nat i) edo.
Proof.
  intros Hi.
  assert (Hlt : (i < length (freqs baseHz edo noteCount))%nat)
    by (eapply lookup_lt_Some; exact Hi).
  rewrite freqs_length in Hlt.
  assert (Hi' : Z.of_nat i < clampInt noteCount 1 edo) by lia.
  split; [exact Hi'|].
  rewrite freqs_lookup in Hi by exact Hi'. congruence.
Qed.

(** X6: within the ranges of the tuning (base frequency in [50, 2000],
    division count in [5, 53]), the scale stays within one octave and
    rises, with room to spare: every entry is at least the base frequency
    and at least [25/53] Hz below its double, and a later entry is at least
    [25/53] Hz above an earlier one (exact values; the margins are far
    above the rounding of the page's arithmetic). *)
Theorem scale_within_one_octave (baseHz : R) (edo : Z) (noteCount : Q) :
  (50 <= baseHz <= 2000)%R -> 5 <= edo <= 53 ->
  (forall i f, freqs baseHz edo noteCount !! i = Some f ->
     (baseHz <= f)%R /\ (f + 25 / 53 <= 2 * baseHz)%R /\ (f < 2 * baseHz)%R)
  /\ (forall i j fi fj, (i < j)%nat ->
       freqs baseHz edo noteCount !! i = Some fi ->
       freqs baseHz edo noteCount !! j = Some fj ->
       (fi + 25 / 53 <= fj)%R /\ (fi < fj)%R).
Proof.
  intros Hb He.
  assert (Hc : clampInt noteCount 1 edo <= edo)
    by (apply clampInt_range; lia).
  assert (Hoct : freqForStep baseHz edo edo = (2 * baseHz)%R).
  { pose proof (octave_up_aux baseHz 0 edo ltac:(lia)) as H.
    rewrite Z.add_0_l in H. rewrite H, freqForStep_0. reflexivity. }
  split.
  - intros i f Hi. apply freqs_lookup_inv in Hi as [Hlt ->].
    assert (Hup : (freqForStep baseHz (Z.of_nat i) edo + 25 / 53
                   <= 2 * baseHz)%R).
    { rewrite <- Hoct. apply freqForStep_gap; [lra|lia|lia]. }
    split; [|split; [exact Hup|lra]].
    apply freqForStep_bounds; [lra|lia].
  - intros i j fi fj Hij Hi Hj.
    apply freqs_lookup_inv in Hi as [_ ->].
    apply freqs_lookup_inv in Hj as [_ ->].
    assert (Hgap : (freqForStep baseHz (Z.of_nat i) edo + 25 / 53
                    <= freqForStep baseHz (Z.of_nat j) edo)%R)
      by (apply freqForStep_gap; [lra|lia|lia]).
    split; [exact Hgap|lra].
Qed.

(** X7: a smaller note count gives the beginning of the scale of a larger
    one: with the same base frequency and division count, the scale for
    [n1] is a prefix of the scale for [n2] when [n1 <= n2]. *)
Theorem scale_prefix (baseHz : R) (edo : Z) (n1 n2 : Q) :
  (n1 <= n2)%Q ->
  freqs baseHz edo n1 `prefix_of` freqs baseHz edo n2.
Proof.
  intros Hn.
  assert (Hc : clampInt n1 1 edo <= clampInt n2 1 edo)
    by (apply Math_round_le in Hn; unfold clampInt; lia).
  pose proof (clampInt_lower n1 1 edo) as H1.
  rewrite !freqs_spec.
  set (c1 := clampInt n1 1 edo) in *. set (c2 := clampInt n2 1 edo) in *.
  exists (map (fun j => freqForStep baseHz (Z.of_nat j) edo)
            (seq (Z.to_nat c1) (Z.to_nat c2 - Z.to_nat c1))).
  rewrite <- map_app, <- seq_app. do 2 f_equal. lia.
Qed.

Lemma clampInt_is_nearest_in_range_witness :
  5 <= clampInt 60.4 5 53 <= 53
  /\ (Qabs.Qabs (inject_Z (clampInt 60.4 5 53) - 60.4)
       <= Qabs.Qabs (inject_Z 40 - 60.4))%Q.
Proof.
  destruct (clampInt_is_nearest_in_range 60.4 5 53) as [H1 H2]; [lia|].
  split; [exact H1|]. apply H2. lia.
Defined.

Lemma clampInt_monotone_witness : clampInt 2.4 1 12 <= clampInt 7.5 1 12.
Proof. apply clampInt_monotone. vm_compute. discriminate. Defined.

Lemma octave_up_witness :
  freqForStep 440 (7 + 12) 12 = (2 * freqForStep 440 7 12)%R.
Proof. apply (octave_up 440 7 12). lia. Defined.

Lemma steps_compose_witness :
  freqForStep (freqForStep 440 7 12) 5 12 = freqForStep 440 (7 + 5) 12.
Proof. apply (steps_compose 440 7 5 12). lia. Defined.

Lemma scale_within_one_octave_witness :
  (440 <= freqForStep 440 7 12)%R
  /\ (freqForStep 440 7 12 + 25 / 53 <= 2 * 440)%R.
Proof.
  destruct (proj1 (scale_within_one_octave 440 12 12 ltac:(lra) ltac:(lia))
              7%nat (freqForStep 440 7 12)) as (H1 & H2 & _).
  - apply freqs_lookup. vm_compute. reflexivity.
  - split; [exact H1|exact H2].
Defined.

Lemma scale_prefix_witness : freqs 440 12 5 `prefix_of` freqs 440 12 12.
Proof. apply scale_prefix. vm_compute. discriminate. Defined.

End ScaleExtras.

(** * Further properties of the tuning inputs *)

Module HomeExtras.

Import Scale Playback Home ScaleFacts PlaybackFacts HomeFacts.

#[local] Open Scope Z_scope.

Lemma clampInt_of_noteCount (t : Tuning) :
  tuning_inv t ->
  clampInt (inject_Z (noteCount t)) 1 (edo t) = noteCount t.
Proof.
  intros [_ Hn]. rewrite clampInt_inject_Z. unfold clamp. lia.
Qed.

Lemma currentFreqs_length (t : Tuning) :
  tuning_inv t -> Z.of_nat (length (currentFreqs t)) = noteCount t.
Proof.
  intros Ht. pose proof Ht as [_ Hn]. unfold currentFreqs.
  rewrite freqs_length, clampInt_of_noteCount by exact Ht. lia.
Qed.

(** X9: after every event, once the effects have run, the division count
    is in [5, 53], the note count is in [1, edo], and the scale table has
    exactly [noteCount] rows, the number the summary line shows.  In the
    render committed between a change of the division count to [v] and
    its effects, where the note count is still the old one and may exceed
    [v], the table has [min noteCount v] rows: already the number of rows
    and the note count the page settles on, which is that render followed
    by the effects. *)
Theorem table_has_noteCount_rows (es : list Home.Event) (v : Z) :
  5 <= v <= 53 ->
  let t := tuning (Home.run initialState es) in
  let r := edoRender v t in
  (5 <= edo t <= 53
   /\ 1 <= noteCount t <= edo t
   /\ Z.of_nat (length (currentFreqs t)) = noteCount t
   /\ Z.of_nat (length (scaleTable (currentFreqs t) (edo t))) = noteCount t)
  /\ (edo r = v /\ noteCount r = noteCount t
      /\ Z.of_nat (length (currentFreqs r)) = Z.min (noteCount t) v
      /\ Z.of_nat (length (scaleTable (currentFreqs r) (edo r)))
         = Z.min (noteCount t) v
      /\ noteCount (setEdo v t) = Z.min (noteCount t) v
      /\ Z.of_nat (length (currentFreqs (setEdo v t)))
         = Z.min (noteCount t) v
      /\ (v <> edo t -> setEdo v t = edoEffects r)).
Proof.
  intros Hv t r. pose proof (run_tuning_inv es) as Ht. fold t in Ht.
  pose proof Ht as [He Hn].
  assert (Hlen : Z.of_nat (length (currentFreqs t)) = noteCount t)
    by (apply currentFreqs_length; exact Ht).
  assert (Hr : Z.of_nat (length (currentFreqs r)) = Z.min (noteCount t) v).
  { unfold currentFreqs, r, edoRender. cbn [baseHz edo noteCount].
    rewrite freqs_length, clampInt_inject_Z. unfold clamp. lia. }
  assert (Hset : tuning_inv (setEdo v t)
                 /\ noteCount (setEdo v t) = Z.min (noteCount t) v).
  { split; [apply setEdo_inv; assumption|].
    unfold setEdo. destruct (Z.eqb_spec v (edo t)) as [->|Hne]; [lia|].
    unfold edoEffects. cbn [edo noteCount].
    rewrite clampInt_inject_Z. unfold clamp. lia. }
  destruct Hset as [Hinv Hnc].
  split; [|split; [|split; [|split; [|split; [|split; [|split]]]]]];
    try reflexivity; try assumption.
  - repeat split; try lia.
    unfold scaleTable. rewrite length_imap. exact Hlen.
  - unfold scaleTable. rewrite length_imap. exact Hr.
  - rewrite currentFreqs_length by exact Hinv. exact Hnc.
  - intros Hne. unfold setEdo.
    destruct (Z.eqb_spec v (edo t)) as [E|_]; [contradiction|reflexivity].
Qed.

Lemma preset_cases (p : Preset) :
  In p PRESETS ->
  (name p = "12-EDO (standard)"%string /\ preset_edo p = 12)
  \/ (name p = "19-EDO"%string /\ preset_edo p = 19)
  \/ (name p = "31-EDO"%string /\ preset_edo p = 31)
  \/ (name p = "53-EDO"%string /\ preset_edo p = 53).
Proof.
  simpl. intros [<-|[<-|[<-|[<-|[]]]]]; simpl; tauto.
Qed.

Lemma find_preset_by_name (p : Preset) :
  In p PRESETS ->
  exists q, List.find (fun x => String.eqb (name x) (name p)) PRESETS = Some q
            /\ preset_edo q = preset_edo p /\ name q = name p.
Proof.
  intros Hp. destruct (preset_cases p Hp) as [[-> ->]|[[-> ->]|[[-> ->]|[-> ->]]]];
    eexists; (split; [reflexivity|]); simpl; auto.
Qed.

Lemma find_preset_by_edo (p : Preset) :
  In p PRESETS ->
  exists q, List.find (fun x => Z.eqb (preset_edo x) (preset_edo p)) PRESETS
            = Some q
            /\ name q = name p.
Proof.
  intros Hp. destruct (preset_cases p Hp) as [[Hn ->]|[[Hn ->]|[[Hn ->]|[Hn ->]]]];
    eexists; (split; [reflexivity|]); simpl; auto.
Qed.

(** X10: selecting a preset sets the division count to the preset's, keeps
    the label on the preset, lowers the note count to the new division
    count when it was higher, and leaves the base frequency alone. *)
Theorem selecting_a_preset (p : Preset) (t : Tuning) :
  In p PRESETS -> tuning_inv t ->
  let t' := onChange_preset (name p) t in
  edo t' = preset_edo p
  /\ presetName t' = name p
  /\ noteCount t' = Z.min (noteCount t) (preset_edo p)
  /\ baseHz t' = baseHz t.
Proof.
  intros Hp [He Hn] t'. subst t'. unfold onChange_preset.
  destruct (find_preset_by_name p Hp) as (q & -> & Hq & _).
  rewrite Hq. unfold setEdo. cbn [edo].
  destruct (Z.eqb_spec (preset_edo p) (edo t)) as [Heq|Hne].
  - cbn [edo presetName noteCount baseHz]. repeat split; auto; lia.
  - unfold edoEffects. cbn [edo presetName noteCount baseHz].
    destruct (find_preset_by_edo p Hp) as (q' & -> & Hq').
    assert (Hr : 5 <= preset_edo p <= 53)
      by (destruct (preset_cases p Hp) as [[_ ->]|[[_ ->]|[[_ ->]|[_ ->]]]]; lia).
    rewrite clampInt_inject_Z. unfold clamp. repeat split; auto; lia.
Qed.

(** X11: selecting an entry that names no preset (the Custom entry) changes
    the label only: the division count, the note count and the base
    frequency stay as they are. *)
Theorem selecting_custom_keeps_the_tuning (n : string) (t : Tuning) :
  (forall p, In p PRESETS -> name p <> n) ->
  let t' := onChange_preset n t in
  presetName t' = n /\ edo t' = edo t /\ noteCount t' = noteCount t
  /\ baseHz t' = baseHz t.
Proof.
  intros Hn t'. subst t'. unfold onChange_preset.
  destruct (List.find _ PRESETS) as [p|] eqn:Hf; [|simpl; auto].
  apply find_some in Hf as [Hin Heq].
  apply String.eqb_eq in Heq. exfalso. exact (Hn p Hin Heq).
Qed.

(** X12: typing a division count.  The stored count is the typed number,
    rounded and clamped to [5, 53]; the note count is lowered to it when it
    was higher; and when the count changed, the label becomes the preset of
    that count, or Custom when no preset has it.  When the count did not
    change, the label stays. *)
Theorem typing_a_division_count (v : Q) (t : Tuning) :
  tuning_inv t ->
  let t' := onChange_edo v t in
  edo t' = clampInt v 5 53
  /\ noteCount t' = Z.min (noteCount t) (edo t')
  /\ baseHz t' = baseHz t
  /\ (edo t' = edo t -> presetName t' = presetName t)
  /\ (edo t' <> edo t ->
      (forall p, In p PRESETS -> preset_edo p = edo t' ->
         presetName t' = name p)
      /\ ((forall p, In p PRESETS -> preset_edo p <> edo t') ->
          presetName t' = "Custom"%string)).
Proof.
  intros [He Hn] t'. subst t'. unfold onChange_edo, setEdo.
  assert (Hv : 5 <= clampInt v 5 53 <= 53) by (apply clampInt_range; lia).
  destruct (Z.eqb_spec (clampInt v 5 53) (edo t)) as [Heq|Hne].
  - repeat split; auto; try lia; try congruence.
  - unfold edoEffects. cbn [edo presetName noteCount baseHz].
    rewrite clampInt_inject_Z. unfold clamp.
    split; [reflexivity|]. split; [lia|]. split; [reflexivity|].
    split; [intros H; congruence|]. intros _. split.
    + intros p Hp Hpe. rewrite <- Hpe.
      destruct (find_preset_by_edo p Hp) as (q & -> & Hq). exact Hq.
    + intros Hnone.
      destruct (List.find _ PRESETS) as [q|] eqn:Hf; [|reflexivity].
      apply find_some in Hf as [Hin Heq].
      apply Z.eqb_eq in Heq. exfalso. exact (Hnone q Hin Heq).
Qed.

End HomeExtras.

(** * Further properties of the playback controller *)

Module PlaybackExtras.

Import Playback PlaybackFacts.

Section Extras.

Context {Freq : Type}.

Implicit Types (w : World Freq) (e : Event Freq) (k j : nat)
  (fs rest : list Freq).

Ltac unfold_step :=
  unfold step, playScale, stop, settle, timeout, playScale_loop,
    playScale_exit, ensureAudioContext, spawn, emit, set_task, set_playing,
    set_stopFlag, set_audioCtx in *.

Lemma ordered_snoc (l : list nat) (k : nat) :
  ordered l -> Forall (fun id => id <= k) l -> ordered (l ++ [k]).
Proof.
  intros Ho Hk i j a b Hij Hi Hj.
  rewrite Forall_lookup in Hk.
  destruct (decide (j < length l)) as [Hjl|Hjl].
  - rewrite lookup_app_l in Hi by lia. rewrite lookup_app_l in Hj by lia.
    exact (Ho i j a b Hij Hi Hj).
  - rewrite lookup_app_r in Hj by lia.
    destruct (j - length l) as [|n] eqn:Hn; simplify_eq/=.
    destruct (decide (i < length l)) as [Hil|Hil].
    + rewrite lookup_app_l in Hi by lia. exact (Hk i a Hi).
    + rewrite lookup_app_r in Hi by lia.
      destruct (i - length l) as [|m]; simplify_eq/=. lia.
Qed.

(** *** Without a stop request there is one sequence at a time *)

Lemma looping_insert (l : list (Task Freq)) k (t t' : Task Freq) j :
  <[k := t]> l !! j = Some t' -> looping t' = true ->
  (j = k /\ t' = t) \/ (j <> k /\ l !! j = Some t').
Proof.
  intros Hl Ht. destruct (decide (j = k)) as [->|Hne].
  - left. split; [reflexivity|].
    assert (Hk : k < length l).
    { apply lookup_lt_Some in Hl. now rewrite length_insert in Hl. }
    rewrite list_lookup_insert_eq in Hl by exact Hk. congruence.
  - right. split; [exact Hne|].
    now rewrite list_lookup_insert_ne in Hl by congruence.
Qed.

Lemma loop_one_at_a_time k now fs w :
  k < length (tasks w) ->
  (forall j, in_loop w j -> j = k) ->
  ordered (note_calls (log w)) ->
  Forall (fun id => id < length (tasks w)) (note_calls (log w)) ->
  Forall (fun id => id <= k) (note_calls (log w)) ->
  playing w = true ->
  one_at_a_time (playScale_loop k now fs w).
Proof.
  intros Hk Hothers Hord Hlt Hle Hp.
  assert (Hexit : forall (tk : Task Freq) w',
            looping tk = false ->
            tasks w' = <[k := tk]> (tasks w) ->
            note_calls (log w') = note_calls (log w) ->
            one_at_a_time w').
  { intros tk w' Htk Ht Hn.
    assert (Hnone : forall j, ~ in_loop w' j).
    { intros j (t' & Hl & Hloop). rewrite Ht in Hl.
      destruct (looping_insert _ _ _ _ _ Hl Hloop) as [[_ ->]|[Hne Hl']].
      - congruence.
      - apply Hne, Hothers. exists t'. auto. }
    unfold one_at_a_time. rewrite Hn, Ht, length_insert.
    repeat split; auto; intros; exfalso; eapply Hnone; eassumption. }
  destruct (playScale_loop_cases k now fs w)
    as [(f & rest & -> & _ & ->)|[_ ->]].
  - assert (Honly : forall j,
              in_loop (set_task Freq k (PlayAwaitTimeout rest)
                         (emit Freq (SetTimeout k (noteMs + gapMs)%Q)
                            (emit Freq (StartNote k (voice f now)) w))) j ->
              j = k).
    { intros j (t' & Hl & Hloop). simpl in Hl.
      destruct (looping_insert _ _ _ _ _ Hl Hloop) as [[-> _]|[Hne Hl']];
        [reflexivity|].
      apply Hothers. exists t'. auto. }
    unfold one_at_a_time. simpl. rewrite !note_calls_app. simpl.
    rewrite app_nil_r, length_insert.
    split; [|split; [|split; [|split]]].
    + intros j j' Hj Hj'. rewrite (Honly j Hj), (Honly j' Hj'). reflexivity.
    + intros _ _. exact Hp.
    + now apply ordered_snoc.
    + apply Forall_app. split; [exact Hlt|]. now apply Forall_singleton.
    + intros j Hj. rewrite (Honly j Hj).
      apply Forall_app. split; [exact Hle|]. now apply Forall_singleton.
  - destruct (playScale_exit_cases k w) as [->|(_ & _ & ->)].
    + apply (Hexit Fulfilled); reflexivity.
    + apply (Hexit PlayAwaitSuspend); [reflexivity|reflexivity|].
      simpl. rewrite note_calls_app. simpl. apply app_nil_r.
Qed.

Lemma settled_one_at_a_time w w' k (t : Task Freq) :
  one_at_a_time w ->
  looping t = false ->
  tasks w' = <[k := t]> (tasks w) ->
  note_calls (log w') = note_calls (log w) ->
  playing w' = playing w ->
  one_at_a_time w'.
Proof.
  intros (H1 & H2 & H3 & H4 & H5) Ht Htasks Hn Hp.
  assert (Hsub : forall j, in_loop w' j -> in_loop w j).
  { intros j (t' & Hl & Hloop). rewrite Htasks in Hl.
    destruct (looping_insert _ _ _ _ _ Hl Hloop) as [[_ ->]|[_ Hl']].
    - congruence.
    - exists t'. auto. }
  unfold one_at_a_time. rewrite Hn, Hp, Htasks, length_insert.
  split; [|split; [|split; [|split]]]; eauto.
Qed.

Lemma spawned_one_at_a_time w w' (t : Task Freq) :
  one_at_a_time w ->
  looping t = false ->
  tasks w' = tasks w ++ [t] ->
  note_calls (log w') = note_calls (log w) ->
  playing w' = playing w ->
  one_at_a_time w'.
Proof.
  intros (H1 & H2 & H3 & H4 & H5) Ht Htasks Hn Hp.
  assert (Hsub : forall j, in_loop w' j -> in_loop w j).
  { intros j (t' & Hl & Hloop). rewrite Htasks in Hl.
    destruct (decide (j < length (tasks w))) as [Hj|Hj].
    - rewrite lookup_app_l in Hl by exact Hj. exists t'. auto.
    - rewrite lookup_app_r in Hl by lia.
      destruct (j - length (tasks w)); simplify_eq/=. congruence. }
  unfold one_at_a_time. rewrite Hn, Hp, Htasks, length_app.
  split; [|split; [|split; [|split]]]; eauto.
  eapply Forall_impl; [exact H4|]. simpl. intros; lia.
Qed.

Lemma playScale_one_at_a_time w fs fresh now :
  one_at_a_time w -> one_at_a_time (playScale fs fresh now w).
Proof.
  intros Hw. pose proof Hw as (H1 & H2 & H3 & H4 & H5).
  unfold playScale. destruct (playing w) eqn:Hp.
  { apply (spawned_one_at_a_time w _ Fulfilled); auto. }
  assert (Hnone : forall j, ~ in_loop w j).
  { intros j Hj. specialize (H2 j Hj). congruence. }
  set (w1 := ensureAudioContext fresh _).
  assert (Hw1 : tasks w1 = tasks w
                /\ note_calls (log w1) = note_calls (log w)
                /\ playing w1 = true).
  { subst w1. unfold ensureAudioContext. simpl.
    destruct (audioCtx w); simpl; rewrite ?note_calls_app; simpl;
      rewrite ?app_nil_r; auto. }
  destruct Hw1 as (Ht1 & Hn1 & Hp1).
  assert (Hle : Forall (fun id => id <= length (tasks w))
                  (note_calls (log w)))
    by (eapply Forall_impl; [exact H4|]; simpl; intros; lia).
  assert (Hloop : one_at_a_time
                    (playScale_loop (length (tasks w)) now fs
                       (spawn Freq Running w1))).
  { apply loop_one_at_a_time; simpl; rewrite ?Ht1, ?Hn1, ?length_app;
      simpl; auto; try lia.
    - intros j (t' & Hl & Hloop). simpl in Hl. rewrite Ht1 in Hl.
      destruct (decide (j < length (tasks w))) as [Hj|Hj].
      + rewrite lookup_app_l in Hl by exact Hj.
        exfalso. apply (Hnone j). exists t'. auto.
      + rewrite lookup_app_r in Hl by lia.
        destruct (j - length (tasks w)); simplify_eq/=.
    - eapply Forall_impl; [exact H4|]. simpl. intros; lia. }
  destruct (audioCtx w1) as [[]|]; try exact Hloop.
  assert (Honly : forall j,
            in_loop (spawn Freq (PlayAwaitResume fs)
                       (emit Freq (CallResume (length (tasks w))) w1)) j ->
            j = length (tasks w)).
  { intros j (t' & Hl & Hlp). simpl in Hl. rewrite Ht1 in Hl.
    destruct (decide (j < length (tasks w))) as [Hj|Hj].
    - rewrite lookup_app_l in Hl by exact Hj.
      exfalso. apply (Hnone j). exists t'. auto.
    - apply lookup_lt_Some in Hl. rewrite length_app in Hl. simpl in Hl.
      lia. }
  unfold one_at_a_time. simpl. rewrite note_calls_app, Hn1, Ht1, length_app.
  simpl. rewrite app_nil_r.
  split; [|split; [|split; [|split]]]; auto.
  - intros j j' Hj Hj'. rewrite (Honly j Hj), (Honly j' Hj'). reflexivity.
  - eapply Forall_impl; [exact H4|]. simpl. intros; lia.
  - intros j Hj. rewrite (Honly j Hj). exact Hle.
Qed.

Lemma step_one_at_a_time w e :
  e <> Stop -> one_at_a_time w -> one_at_a_time (step w e).
Proof.
  intros He Hw. pose proof Hw as (H1 & H2 & H3 & H4 & H5).
  destruct e as [fs fresh now| |k ok now|k now]; [|congruence| |]; simpl.
  - now apply playScale_one_at_a_time.
  - unfold settle. destruct (tasks w !! k) as [t0|] eqn:Hl; [|exact Hw].
    pose proof (lookup_lt_Some _ _ _ Hl) as Hk.
    destruct t0; try exact Hw.
    + assert (Hin : in_loop w k) by (eexists; split; [exact Hl|reflexivity]).
      destruct ok.
      * apply loop_one_at_a_time; simpl; eauto.
      * apply (settled_one_at_a_time w _ k Rejected); auto.
        simpl. rewrite note_calls_app. simpl. apply app_nil_r.
    + apply (settled_one_at_a_time w _ k Fulfilled); destruct ok; auto.
    + apply (settled_one_at_a_time w _ k Fulfilled); destruct ok; auto.
  - unfold timeout. destruct (tasks w !! k) as [t0|] eqn:Hl; [|exact Hw].
    pose proof (lookup_lt_Some _ _ _ Hl) as Hk.
    destruct t0; try exact Hw.
    assert (Hin : in_loop w k) by (eexists; split; [exact Hl|reflexivity]).
    apply loop_one_at_a_time; simpl; rewrite ?note_calls_app; simpl;
      rewrite ?app_nil_r; eauto.
Qed.

(** X13: as long as Stop is never clicked, there is one sequence at a
    time: at most one call is inside the loop of [playScale], [playingRef]
    is set while one is, and the notes were started call after call (once
    a later call has started a note, no earlier call starts one). *)
Theorem one_sequence_without_stop (es : list (Event Freq)) :
  Forall (fun e => e <> Stop) es ->
  let w := run (initial Freq) es in
  (forall j k, in_loop w j -> in_loop w k -> j = k)
  /\ (forall k, in_loop w k -> playing w = true)
  /\ ordered (note_calls (log w)).
Proof.
  intros Hes w.
  assert (Hinv : one_at_a_time w).
  { subst w.
    assert (H0 : one_at_a_time (initial Freq)).
    { unfold one_at_a_time, in_loop. simpl.
      repeat split; try constructor;
        try (intros ? ? (? & ? & ?); discriminate);
        try (intros ? (? & ? & ?); discriminate).
      intros i j a b _ Hi. discriminate. }
    revert H0. generalize (initial Freq).
    induction Hes as [|e es He _ IH]; intros w0 H0; [exact H0|].
    rewrite run_cons. apply IH, step_one_at_a_time; assumption. }
  destruct Hinv as (H1 & H2 & H3 & _). auto.
Qed.

(** *** Without a stop request the session is never suspended *)

Lemma step_never_suspends w e :
  e <> Stop ->
  stopFlag w = false /\ Forall (fun a => ~ is_CallSuspend a) (log w) ->
  stopFlag (step w e) = false
  /\ Forall (fun a => ~ is_CallSuspend a) (log (step w e)).
Proof.
  intros He [Hs Hl].
  destruct e; try congruence; unfold_step; simpl;
    repeat (case_match; simpl); try congruence;
    rewrite ?Forall_app, ?Forall_singleton; simpl; tauto.
Qed.

(** X14: as long as Stop is never clicked, the controller never asks the
    backend to suspend the session, and the cancellation flag stays
    false: a sequence that ends by itself leaves the session as it is. *)
Theorem no_stop_no_suspend (es : list (Event Freq)) :
  Forall (fun e => e <> Stop) es ->
  stopFlag (run (initial Freq) es) = false
  /\ Forall (fun a => ~ is_CallSuspend a) (log (run (initial Freq) es)).
Proof.
  intros Hes.
  assert (H0 : stopFlag (initial Freq) = false
               /\ Forall (fun a => ~ is_CallSuspend a) (log (initial Freq)))
    by (split; [reflexivity|constructor]).
  revert H0. generalize (initial Freq).
  induction Hes as [|e es He _ IH]; intros w0 H0; [exact H0|].
  rewrite run_cons. apply IH, step_never_suspends; assumption.
Qed.

(** *** The audio context *)

Lemma contexts_created_app (l1 l2 : list (Action Freq)) :
  contexts_created (l1 ++ l2) = contexts_created l1 + contexts_created l2.
Proof.
  induction l1 as [|a l1 IH]; [reflexivity|].
  destruct a; simpl; rewrite ?IH; reflexivity.
Qed.

Lemma step_keeps_context w e :
  audioCtx w <> None /\ contexts_created (log w) = 1 ->
  audioCtx (step w e) <> None /\ contexts_created (log (step w e)) = 1.
Proof.
  intros [Hc1 Hc2].
  destruct e; unfold_step; simpl; repeat (case_match; simpl);
    rewrite ?contexts_created_app; simpl; simplify_eq;
    split; try congruence; try lia.
Qed.

Lemma step_context w e :
  (audioCtx w = None /\ contexts_created (log w) = 0
   /\ Forall (fun t => t = Fulfilled) (tasks w)
   \/ audioCtx w <> None /\ contexts_created (log w) = 1) ->
  (audioCtx (step w e) = None /\ contexts_created (log (step w e)) = 0
   /\ Forall (fun t => t = Fulfilled) (tasks (step w e))
   \/ audioCtx (step w e) <> None /\ contexts_created (log (step w e)) = 1).
Proof.
  intros [(Hc & Hn & Ht)|Hb]; [|right; now apply step_keeps_context].
  destruct e as [fs fresh now| |k ok now|k now]; simpl.
  - unfold playScale. destruct (playing w).
    + left. simpl. repeat split; auto. apply Forall_app.
      split; [exact Ht|]. now apply Forall_singleton.
    + right. unfold ensureAudioContext. simpl. rewrite Hc. simpl.
      destruct fresh; unfold_step; simpl; repeat (case_match; simpl);
        rewrite ?contexts_created_app; simpl; split; try congruence; lia.
  - left. unfold stop. simpl. rewrite Hc. simpl.
    repeat split; auto. apply Forall_app. split; [exact Ht|].
    now apply Forall_singleton.
  - left. unfold settle. destruct (tasks w !! k) as [t|] eqn:Hk; [|auto].
    pose proof Ht as Ht'. rewrite Forall_lookup in Ht'.
    rewrite (Ht' k t Hk). auto.
  - left. unfold timeout. destruct (tasks w !! k) as [t|] eqn:Hk; [|auto].
    pose proof Ht as Ht'. rewrite Forall_lookup in Ht'.
    rewrite (Ht' k t Hk). auto.
Qed.

(** X15: the audio context is constructed lazily and once: in every run
    at most one context is constructed, there is a context exactly when
    one was constructed, and no event makes the page drop its context. *)
Theorem context_created_once (es : list (Event Freq)) (e : Event Freq) :
  let w := run (initial Freq) es in
  contexts_created (log w) <= 1
  /\ (audioCtx w = None <-> contexts_created (log w) = 0)
  /\ (audioCtx w <> None -> audioCtx (step w e) <> None).
Proof.
  intros w.
  assert (Hinv : audioCtx w = None /\ contexts_created (log w) = 0
                 /\ Forall (fun t => t = Fulfilled) (tasks w)
                 \/ audioCtx w <> None /\ contexts_created (log w) = 1).
  { subst w.
    assert (H0 : audioCtx (initial Freq) = None
                 /\ contexts_created (log (initial Freq)) = 0
                 /\ Forall (fun t => t = Fulfilled) (tasks (initial Freq))
                 \/ audioCtx (initial Freq) <> None
                    /\ contexts_created (log (initial Freq)) = 1)
      by (left; repeat split; constructor).
    revert H0. generalize (initial Freq).
    induction es as [|e' es IH]; intros w0 H0; [exact H0|].
    rewrite run_cons. apply IH, step_context, H0. }
  split; [|split].
  - destruct Hinv as [(_ & -> & _)|[_ ->]]; lia.
  - destruct Hinv as [(H1 & H2 & _)|[H1 H2]]; split; intros H;
      congruence || lia.
  - intros Hc. destruct Hinv as [(H1 & _)|Hb]; [congruence|].
    now apply step_keeps_context.
Qed.

Lemma step_without_play w e :
  ~ is_play e ->
  audioCtx w = None /\ log w = [] /\ playing w = false
  /\ Forall (fun t => t = Fulfilled) (tasks w) ->
  audioCtx (step w e) = None /\ log (step w e) = []
  /\ playing (step w e) = false
  /\ Forall (fun t => t = Fulfilled) (tasks (step w e)).
Proof.
  intros He (Hc & Hl & Hp & Ht).
  destruct e as [| |k ok now|k now]; simpl in He; try tauto; simpl.
  - unfold stop. simpl. rewrite Hc. simpl.
    repeat split; auto. apply Forall_app. split; [exact Ht|].
    now apply Forall_singleton.
  - unfold settle. destruct (tasks w !! k) as [t|] eqn:Hk; [|auto].
    rewrite Forall_lookup in Ht. rewrite (Ht k t Hk).
    repeat split; auto. now apply Forall_lookup.
  - unfold timeout. destruct (tasks w !! k) as [t|] eqn:Hk; [|auto].
    rewrite Forall_lookup in Ht. rewrite (Ht k t Hk).
    repeat split; auto. now apply Forall_lookup.
Qed.

(** X16: before Play is clicked for the first time nothing happens: Stop
    clicks and stray timer or backend events create no audio context, call
    nothing on the backend, leave [playingRef] clear, and every [stop()]
    call is fulfilled at once. *)
Theorem nothing_happens_before_play (es : list (Event Freq)) :
  Forall (fun e => ~ is_play e) es ->
  let w := run (initial Freq) es in
  audioCtx w = None /\ log w = [] /\ playing w = false
  /\ Forall (fun t => t = Fulfilled) (tasks w).
Proof.
  intros Hes w. subst w.
  assert (H0 : audioCtx (initial Freq) = None /\ log (initial Freq) = []
               /\ playing (initial Freq) = false
               /\ Forall (fun t => t = Fulfilled) (tasks (initial Freq)))
    by (repeat split; constructor).
  revert H0. generalize (initial Freq).
  induction Hes as [|e es He _ IH]; intros w0 H0; [exact H0|].
  rewrite run_cons. apply IH, step_without_play; assumption.
Qed.

(** *** Calls of [stop] *)

Lemma step_fulfilled_stable w e k :
  tasks w !! k = Some Fulfilled -> tasks (step w e) !! k = Some Fulfilled.
Proof.
  intros Hk. pose proof (lookup_lt_Some _ _ _ Hk) as Hlt.
  destruct (classic_targets e k) as [Ht|Ht].
  - destruct e as [| |k' ok now|k' now]; simpl in Ht; try contradiction;
      subst k'; simpl.
    + unfold settle. now rewrite Hk.
    + unfold timeout. now rewrite Hk.
  - destruct (step_frame w e k Hlt Ht) as [-> _]. exact Hk.
Qed.

Lemma step_stop_waiting w e k :
  tasks w !! k = Some StopAwaitSuspend ->
  (tasks (step w e) !! k = Some StopAwaitSuspend
   \/ tasks (step w e) !! k = Some Fulfilled)
  /\ (forall ok now, e = Settle k ok now ->
        tasks (step w e) !! k = Some Fulfilled).
Proof.
  intros Hk. pose proof (lookup_lt_Some _ _ _ Hk) as Hlt.
  destruct (classic_targets e k) as [Ht|Ht].
  - destruct e as [| |k' ok now|k' now]; simpl in Ht; try contradiction;
      subst k'; simpl.
    + unfold settle. rewrite Hk. simpl.
      rewrite list_lookup_insert_eq by (destruct ok; exact Hlt). auto.
    + unfold timeout. rewrite Hk. split; [auto|]. discriminate.
  - destruct (step_frame w e k Hlt Ht) as [-> _].
    split; [auto|]. intros ok now ->. simpl in Ht. congruence.
Qed.

(** X18: a call of [stop] is never rejected, whatever the backend refuses
    and whatever else happens: it waits for its [suspend], or it is
    fulfilled; it is fulfilled at once when the session was not running,
    and as soon as its [suspend] settles, fulfilled or refused. *)
Theorem stop_is_never_rejected w (es : list (Event Freq)) :
  let k := length (tasks w) in
  let w' := run (stop w) es in
  (tasks w' !! k = Some StopAwaitSuspend \/ tasks w' !! k = Some Fulfilled)
  /\ (audioCtx w <> Some running -> tasks w' !! k = Some Fulfilled)
  /\ (forall ok now, Settle k ok now ∈ es ->
        tasks w' !! k = Some Fulfilled).
Proof.
  intros k w'. subst w'.
  assert (Hstable : forall es0 w0, tasks w0 !! k = Some Fulfilled ->
                      tasks (run w0 es0) !! k = Some Fulfilled).
  { induction es0 as [|e es0 IH]; intros w0 H0; [exact H0|].
    rewrite run_cons. apply IH, step_fulfilled_stable, H0. }
  assert (Hwait : forall es0 w0, tasks w0 !! k = Some StopAwaitSuspend ->
            (tasks (run w0 es0) !! k = Some StopAwaitSuspend
             \/ tasks (run w0 es0) !! k = Some Fulfilled)
            /\ (forall ok now, Settle k ok now ∈ es0 ->
                  tasks (run w0 es0) !! k = Some Fulfilled)).
  { induction es0 as [|e es0 IH]; intros w0 H0.
    - split; [auto|]. intros ok now Hin. inversion Hin.
    - rewrite run_cons.
      destruct (step_stop_waiting w0 e k H0) as [[H1|H1] H2].
      + destruct (IH _ H1) as [H3 H4]. split; [exact H3|].
        intros ok now Hin. apply elem_of_cons in Hin as [<-|Hin].
        * apply Hstable. now apply (H2 ok now).
        * now apply (H4 ok now).
      + split; [right|intros ok now _]; now apply Hstable. }
  assert (H0 : tasks (stop w) !! k = Some StopAwaitSuspend
               /\ audioCtx w = Some running
               \/ tasks (stop w) !! k = Some Fulfilled).
  { unfold stop. simpl.
    destruct (audioCtx w) as [[]|]; simpl;
      rewrite lookup_app_r, Nat.sub_diag by (subst k; lia); auto. }
  destruct H0 as [[H0 Hc]|H0].
  - destruct (Hwait es _ H0) as [H1 H2].
    split; [exact H1|]. split; [congruence|exact H2].
  - pose proof (Hstable es _ H0) as H1. auto.
Qed.

(** *** The schedule of a note *)

(** X19: in every run, the schedule of each started note is in order: the
    four gain events come at strictly increasing times from the start of
    the generator, every gain value is positive (as an exponential ramp
    needs), the generator stops after the last gain event, and the timer
    the call waits on ends after the generator has stopped. *)
Theorem note_schedule_in_order (es : list (Event Freq)) (i k : nat)
    (v : Voice Freq) :
  log (run (initial Freq) es) !! i = Some (StartNote k v) ->
  exists t0 t1 t2 t3 : Q,
    map event_time (gain_gain v) = [t0; t1; t2; t3]
    /\ osc_start v = t0
    /\ (t0 < t1)%Q /\ (t1 < t2)%Q /\ (t2 < t3)%Q /\ (t3 < osc_stop v)%Q
    /\ (osc_stop v < osc_start v + (noteMs + gapMs) / 1000)%Q
    /\ Forall (fun g => (0 < event_value g)%Q) (gain_gain v).
Proof.
  intros Hi.
  assert (Hp : paced (log (run (initial Freq) es)))
    by (apply run_paced; exact I).
  destruct (paced_lookup _ _ _ _ Hp Hi) as [(f & now & ->) _].
  eexists _, _, _, _. split; [reflexivity|]. split; [reflexivity|].
  simpl. unfold attackMs, noteMs, releaseMs, gapMs.
  pose proof (Q.le_max_r (8 / 1000) (240 / 1000 - 25 / 1000)) as Hr.
  assert (Hm : (Qmax (8 / 1000) (240 / 1000 - 25 / 1000) < 240 / 1000)%Q)
    by (apply Q.max_lub_lt; reflexivity).
  assert (H215 : (8 / 1000 < 240 / 1000 - 25 / 1000)%Q) by reflexivity.
  set (m := Qmax (8 / 1000) (240 / 1000 - 25 / 1000)) in *.
  repeat split; try Lqa.lra.
  - rewrite <- (Qplus_0_r now) at 1. apply Qplus_lt_r. reflexivity.
  - rewrite <- Qplus_assoc. apply Qplus_lt_r. reflexivity.
  - repeat constructor.
Qed.

(** *** Stop before the first note *)

Lemma run_frame w es k :
  k < length (tasks w) ->
  Forall (fun e => ~ targets e k) es ->
  tasks (run w es) !! k = tasks w !! k.
Proof.
  intros Hk Hes. revert w Hk.
  induction Hes as [|e es He _ IH]; intros w Hk; [reflexivity|].
  rewrite run_cons, IH by (pose proof (step_length w e); lia).
  now destruct (step_frame w e k Hk He).
Qed.

(** X20: Stop clicked while a call of [playScale] still waits for
    [resume], with no Play clicked in between: whatever else happens, when
    the [resume] is fulfilled the call starts no note, clears
    [playingRef], and asks for the session to be suspended again; once that
    is fulfilled the call is fulfilled and the session is suspended. *)
Theorem stop_before_the_first_note w k fs (es : list (Event Freq))
    (now now' : Q) :
  tasks w !! k = Some (PlayAwaitResume fs) ->
  Forall (fun e => ~ is_play e /\ ~ targets e k) es ->
  let w1 := run (stop w) es in
  let w2 := settle k true now w1 in
  let w3 := settle k true now' w2 in
  (forall j, notes_of j (log w3) = notes_of j (log w))
  /\ playing w2 = false
  /\ tasks w2 !! k = Some PlayAwaitSuspend
  /\ tasks w3 !! k = Some Fulfilled
  /\ audioCtx w3 = Some suspended.
Proof.
  intros Hlk Hes w1 w2 w3.
  pose proof (lookup_lt_Some _ _ _ Hlk) as Hk.
  destruct (stop_spec w) as (Hs0 & _ & Hl0 & Hn0).
  assert (Hes1 : Forall (fun e => ~ is_play e) es)
    by (eapply Forall_impl; [exact Hes|]; simpl; tauto).
  assert (Hes2 : Forall (fun e => ~ targets e k) es)
    by (eapply Forall_impl; [exact Hes|]; simpl; tauto).
  destruct (run_stopped (stop w) es Hes1 Hs0) as [Hs1 Hn1].
  fold w1 in Hs1, Hn1.
  assert (Hlk1 : tasks w1 !! k = Some (PlayAwaitResume fs)).
  { subst w1. rewrite run_frame; [|lia|exact Hes2].
    change (stop w) with (step w Stop).
    destruct (step_frame w Stop k Hk) as [-> _]; [simpl; tauto|exact Hlk]. }
  pose proof (lookup_lt_Some _ _ _ Hlk1) as Hk1.
  assert (Hw2 : w2 = set_task Freq k PlayAwaitSuspend
                       (emit Freq (CallSuspend k)
                          (set_playing Freq false
                             (set_audioCtx Freq (Some running) w1)))).
  { subst w2. unfold settle. rewrite Hlk1.
    unfold playScale_loop, playScale_exit. simpl. rewrite Hs1.
    now destruct fs. }
  assert (Hlk2 : tasks w2 !! k = Some PlayAwaitSuspend).
  { rewrite Hw2. simpl. now rewrite list_lookup_insert_eq by exact Hk1. }
  assert (Hw3 : w3 = set_task Freq k Fulfilled
                       (set_audioCtx Freq (Some suspended) w2)).
  { subst w3. unfold settle. now rewrite Hlk2. }
  split; [|split; [|split; [|split]]].
  - intros j. rewrite Hw3, Hw2. simpl. rewrite notes_of_app, Hn1, Hn0.
    simpl. now rewrite app_nil_r.
  - rewrite Hw2. reflexivity.
  - exact Hlk2.
  - rewrite Hw3. simpl. rewrite list_lookup_insert_eq; [reflexivity|].
    now apply lookup_lt_Some in Hlk2.
  - rewrite Hw3. reflexivity.
Qed.

End Extras.

Lemma one_sequence_without_stop_witness :
  ordered
    (note_calls
       (log (run (initial Q)
               [Play [440; 660]%Q running 0%Q; Play [1]%Q running 0.1%Q;
                Timeout 0 0.27%Q; Timeout 0 0.54%Q;
                Play [880]%Q running 0.6%Q]))).
Proof.
  apply (@one_sequence_without_stop Q).
  repeat constructor; discriminate.
Defined.

Lemma no_stop_no_suspend_witness :
  Forall (fun a => ~ is_CallSuspend a)
    (log (run (initial Q)
            [Play [440; 660]%Q running 0%Q; Timeout 0 0.27%Q;
             Timeout 0 0.54%Q])).
Proof.
  apply (@no_stop_no_suspend Q).
  repeat constructor; discriminate.
Defined.

Lemma nothing_happens_before_play_witness :
  log (run (initial Q) [Stop; Timeout 0 0%Q; Stop; Settle 1 false 0%Q]) = [].
Proof.
  apply (@nothing_happens_before_play Q).
  repeat constructor; simpl; tauto.
Defined.



Lemma note_schedule_in_order_witness :
  Forall (fun g => (0 < event_value g)%Q) (gain_gain (voice 440%Q 0%Q)).
Proof.
  destruct (@note_schedule_in_order Q [Play [440%Q] running 0%Q] 1 0
              (voice 440%Q 0%Q) eq_refl)
    as (? & ? & ? & ? & _ & _ & _ & _ & _ & _ & _ & H).
  exact H.
Defined.

Lemma stop_before_the_first_note_witness :
  audioCtx
    (settle 0 true 0.2%Q
       (settle 0 true 0.1%Q
          (run (stop (run (initial Q) [Play [440]%Q suspended 0%Q]))
             [Timeout 5 0.05%Q; Settle 1 true 0.05%Q])))
  = Some suspended.
Proof.
  apply (@stop_before_the_first_note Q
           (run (initial Q) [Play [440]%Q suspended 0%Q]) 0 [440]%Q
           [Timeout 5 0.05%Q; Settle 1 true 0.05%Q] 0.1%Q 0.2%Q).
  - reflexivity.
  - repeat constructor; simpl; try tauto; discriminate.
Defined.

Lemma stop_cancels_the_loop_witness :
  playing
    (timeout 0 0.27%Q
       (run (stop (run (initial Q) [Play [440; 660]%Q running 0%Q]))
          [Settle 1 true 0.1%Q])) = false.
Proof.
  apply (@stop_cancels_the_loop Q
           (run (initial Q) [Play [440; 660]%Q running 0%Q]) 0 [660]%Q
           [Settle 1 true 0.1%Q] 0.27%Q 0.3%Q).
  - reflexivity.
  - repeat constructor; simpl; try tauto; discriminate.
Defined.

Lemma suspend_rejection_swallowed_witness :
  tasks
    (settle 1 false 0.1%Q
       (run (initial Q) [Play [440; 660]%Q running 0%Q; Stop])) !! 1%nat
  = Some Fulfilled.
Proof.
  apply (@suspend_rejection_swallowed Q
           (run (initial Q) [Play [440; 660]%Q running 0%Q; Stop]) 1 0.1%Q).
  left. reflexivity.
Defined.

Lemma stop_is_never_rejected_witness :
  tasks
    (run (stop (run (initial Q) [Play [440; 660]%Q running 0%Q]))
       [Timeout 0 0.27%Q; Settle 1 false 0.3%Q]) !! 1%nat
  = Some Fulfilled.
Proof.
  destruct (@stop_is_never_rejected Q
              (run (initial Q) [Play [440; 660]%Q running 0%Q])
              [Timeout 0 0.27%Q; Settle 1 false 0.3%Q]) as (_ & _ & H).
  apply (H false 0.3%Q). right. left.
Defined.

End PlaybackExtras.

(** * Further properties of the page *)

Module PageExtras.

Import Scale Playback Home ScaleFacts PlaybackFacts HomeFacts.
Import PlaybackExtras HomeExtras.

#[local] Open Scope Z_scope.

Lemma run_timers (k : nat) (nows : list Q) : forall s : Home.State,
  tuning (Home.run s (map (TimerFired k) nows)) = tuning s
  /\ playback (Home.run s (map (TimerFired k) nows))
     = Playback.run (playback s) (map (Timeout k) nows).
Proof.
  induction nows as [|now nows IH]; intros s; [split; reflexivity|].
  destruct (IH (Home.step s (TimerFired k now))) as [Ht Hp].
  split; [exact Ht|exact Hp].
Qed.

(** X21: Play on an idle page plays the table.  From every state the page
    can reach with [playingRef] clear, after a click on Play, the [resume]
    fulfilled if one was needed, and as many timer firings as the note
    count, the call is fulfilled, it has started exactly the frequencies of
    the scale table, [noteCount] of them, in order, [playingRef] is clear
    again, and the tuning is untouched. *)
Theorem play_plays_the_table (es0 : list Home.Event)
    (fresh : AudioContextState) (now now' : Q) (nows : list Q) :
  let s := Home.run initialState es0 in
  playing (playback s) = false ->
  Z.of_nat (length nows) = noteCount (tuning s) ->
  let k := length (tasks (playback s)) in
  let s' := Home.run s (ClickPlay fresh now :: Settled k true now'
                          :: map (TimerFired k) nows) in
  tasks (playback s') !! k = Some Fulfilled
  /\ notes_of k (log (playback s')) = currentFreqs (tuning s)
  /\ Z.of_nat (length (notes_of k (log (playback s')))) = noteCount (tuning s)
  /\ playing (playback s') = false
  /\ tuning s' = tuning s.
Proof.
  intros s Hp Hlen k s'.
  pose proof (currentFreqs_length _ (run_tuning_inv es0)) as Hrows.
  fold s in Hrows.
  assert (Hlen' : length nows = length (currentFreqs (tuning s))) by lia.
  pose proof (reachable_log_wf es0) as Hwf. fold s in Hwf.
  destruct (play_completes (playback s) (currentFreqs (tuning s)) fresh now
              now' nows Hwf Hp Hlen') as (Ha & Hb & Hc & _).
  fold k in Ha, Hb, Hc.
  set (s1 := Home.step (Home.step s (ClickPlay fresh now))
               (Settled k true now')).
  assert (Hs' : s' = Home.run s1 (map (TimerFired k) nows)) by reflexivity.
  destruct (run_timers k nows s1) as [Ht Hpb].
  rewrite Hs', Hpb, Ht.
  change (Playback.run (playback s1) (map (Timeout k) nows))
    with (Playback.run
            (playScale (currentFreqs (tuning s)) fresh now (playback s))
            (Settle k true now' :: map (Timeout k) nows)).
  repeat split; auto. now rewrite Hb.
Qed.

Lemma table_has_noteCount_rows_witness :
  noteCount (edoRender 5 initialTuning) = 12
  /\ Z.of_nat (length (currentFreqs (edoRender 5 initialTuning))) = 5
  /\ noteCount (setEdo 5 initialTuning) = 5.
Proof.
  destruct (table_has_noteCount_rows [] 5 ltac:(lia))
    as (_ & _ & H1 & H2 & _ & H3 & _).
  split; [exact H1|]. split; [exact H2|exact H3].
Defined.

Lemma selecting_a_preset_witness :
  edo (onChange_preset "19-EDO" (onChange_noteCount 12 initialTuning)) = 19.
Proof.
  apply (selecting_a_preset
           {| name := "19-EDO"; preset_edo := 19; notes := None |}
           (onChange_noteCount 12 initialTuning)).
  - simpl. tauto.
  - split; vm_compute; split; discriminate.
Defined.

Lemma selecting_custom_keeps_the_tuning_witness :
  edo (onChange_preset "Custom" initialTuning) = 12.
Proof.
  apply (selecting_custom_keeps_the_tuning "Custom" initialTuning).
  intros p [<-|[<-|[<-|[<-|[]]]]]; discriminate.
Defined.

Lemma typing_a_division_count_witness :
  noteCount (onChange_edo 7.6 initialTuning)
  = Z.min 12 (edo (onChange_edo 7.6 initialTuning)).
Proof.
  apply (typing_a_division_count 7.6 initialTuning).
  split; vm_compute; split; discriminate.
Defined.

Lemma play_plays_the_table_witness :
  notes_of 0
    (log (playback
            (Home.run initialState
               (ChangeNoteCount 2 :: ClickPlay running 0%Q
                :: Settled 0 true 0%Q
                :: map (TimerFired 0) [0.27; 0.54]%Q))))
  = currentFreqs (onChange_noteCount 2 initialTuning).
Proof.
  apply (play_plays_the_table [ChangeNoteCount 2] running 0%Q 0%Q
           [0.27; 0.54]%Q).
  - reflexivity.
  - reflexivity.
Defined.

End PageExtras.
